(** * Voice-Game-Master: the realtime session hook [useGeminiLive]

    A shallow embedding of [src/hooks/use-gemini-live.ts] (and of the
    [Message] record of [src/types.ts]) together with the properties of the
    session lifecycle, the playback scheduler, the capture loudness and the
    transcript accumulator.

    Conventions of the embedding.
    - The React state cells ([isConnected], [messages], [volume], [error]) and
      the refs ([...Ref.current]) are the fields of one record [State]; a
      functional update [setMessages(prev => f prev)] is applied when it is
      issued, in call order.
    - Browser and SDK objects (audio contexts, media streams, processor nodes,
      buffer sources, the session promise) are opaque handles; the calls made
      on them are recorded, in order, in a trace of [Op]s.
    - The promise that [ai.live.connect] returns is never awaited.  The hook
      only attaches continuations to it ([.then(...)] in [onaudioprocess] and
      in [disconnect]); a handler records the attachment ([ThenSendRealtimeInput],
      [ThenClose]), which is all it does synchronously.  When the
      continuations of [disconnect] run, if at all, is decided by how the
      promise settles: see [worldStep].
    - Every callback is one atomic step of the event loop.  [onmessage] awaits
      [decodeAudioData], a helper of [utils/audio-utils] that performs no I/O;
      its promise settles before the next event is dispatched.  [connect]
      awaits [getUserMedia], which may take arbitrarily long, so [connect] is
      split at that [await] into [connect] and [connect_resume].
    - A JavaScript [number] that is a time is a rational; the loudness, which
      needs a square root, is a real.  [Date] values are epoch milliseconds.
    - What the platform answers (clock readings, fresh handles, whether a call
      throws) is supplied to each handler in an environment record. *)

From Stdlib Require Import List String Ascii Bool ZArith QArith Qminmax.
From Stdlib Require Import DecimalString DecimalPos DecimalZ Reals Lia Lra.
Import ListNotations.

Set Implicit Arguments.

#[local] Close Scope R_scope.
#[local] Close Scope Q_scope.

(* ===================================================================== *)
(** ** JavaScript values                                                   *)
(* ===================================================================== *)

Module JS.

(** Truthiness of a string: the empty string is falsy. *)
Definition truthyString (s : string) : bool :=
  match s with
  | EmptyString => false
  | String _ _ => true
  end.

(** Truthiness of an optional string ([undefined] is falsy). *)
Definition truthyText (o : option string) : bool :=
  match o with
  | Some s => truthyString s
  | None => false
  end.

(** Truthiness of an optional boolean ([undefined] is falsy). *)
Definition truthyFlag (o : option bool) : bool :=
  match o with
  | Some b => b
  | None => false
  end.

(** [a || d] on an optional string. *)
Definition orElse (a : option string) (d : string) : string :=
  match a with
  | Some s => if truthyString s then s else d
  | None => d
  end.

(** [n.toString()] for an integer [n]. *)
Definition toString (n : Z) : string :=
  NilZero.string_of_int (Z.to_int n).

(** [prev[prev.length - 1]] *)
Fixpoint lastOf {A : Type} (l : list A) : option A :=
  match l with
  | [] => None
  | [x] => Some x
  | _ :: tl => lastOf tl
  end.

(** [prev.slice(0, -1)] *)
Definition sliceInit {A : Type} (l : list A) : list A := removelast l.

(** An exception value; only its [message] property is ever read. *)
Record Exn : Type := mkExn { message : option string }.

End JS.

(* ===================================================================== *)
(** ** [src/types.ts]                                                      *)
(* ===================================================================== *)

Inductive Role : Type := user | model | system.

Definition Role_eqb (a b : Role) : bool :=
  match a, b with
  | user, user | model, model | system, system => true
  | _, _ => false
  end.

Record Message : Type := mkMessage {
  id : string;
  role : Role;
  text : string;
  timestamp : Z;
  isPartial : option bool
}.

(** [{ ...m, text: t }] *)
Definition withText (t : string) (m : Message) : Message :=
  {| id := id m; role := role m; text := t;
     timestamp := timestamp m; isPartial := isPartial m |}.

(** [{ ...m, isPartial: false }] *)
Definition finalized (m : Message) : Message :=
  {| id := id m; role := role m; text := text m;
     timestamp := timestamp m; isPartial := Some false |}.

(* ===================================================================== *)
(** ** The platform: handles and the operations performed on them          *)
(* ===================================================================== *)

Definition AudioContext := nat.
Definition MediaStream := nat.
Definition ScriptProcessorNode := nat.
Definition AudioBufferSourceNode := nat.
Definition SessionPromise := nat.

(** [ThenSendRealtimeInput] and [ThenClose] attach a continuation to a
    session promise: [sessionPromise.then(session =>
    session.sendRealtimeInput(...))] and [sessionPromiseRef.current.then(
    session => { ... session.close() ... }).catch(() => {})].  [SessionClose]
    is the call [session.close()] itself, made inside the continuation of a
    fulfilled promise; no handler of the hook makes it. *)
Inductive Op : Type :=
| NewAudioContext (sampleRate : Z)
| NewGoogleGenAI
| GetUserMedia
| LiveConnect (voice instruction : string)
| CreateMediaStreamSource (c : AudioContext) (m : MediaStream)
| CreateScriptProcessor (c : AudioContext) (bufferSize : Z) (p : ScriptProcessorNode)
| ConnectProcessor (c : AudioContext) (p : ScriptProcessorNode)
| ThenSendRealtimeInput (samples : nat)
| CreateBufferSource (c : AudioContext) (src : AudioBufferSourceNode)
| SourceStart (src : AudioBufferSourceNode) (when : Q)
| SourceStop (src : AudioBufferSourceNode)
| AudioContextClose (c : AudioContext)
| StopTracks (m : MediaStream)
| ProcessorDisconnect (p : ScriptProcessorNode)
| ThenClose (p : SessionPromise)
| SessionClose (p : SessionPromise).

(** Operations that acquire a device or a session. *)
Definition isAcquire (o : Op) : bool :=
  match o with
  | NewAudioContext _ | NewGoogleGenAI | GetUserMedia | LiveConnect _ _ => true
  | _ => false
  end.

(** Operations that release the microphone, an audio context, the processor
    node or the session; for the session, both handing its close to the
    promise and the close itself. *)
Definition isRelease (o : Op) : bool :=
  match o with
  | AudioContextClose _ | StopTracks _ | ProcessorDisconnect _
  | ThenClose _ | SessionClose _ => true
  | _ => false
  end.

Definition isSourceStop (o : Op) : bool :=
  match o with
  | SourceStop _ => true
  | _ => false
  end.

(* ===================================================================== *)
(** ** The state of the hook                                               *)
(* ===================================================================== *)

Record State : Type := mkState {
  isConnected : bool;
  messages : list Message;
  volume : R;
  error : option string;
  inputAudioContextRef : option AudioContext;
  outputAudioContextRef : option AudioContext;
  mediaStreamRef : option MediaStream;
  scriptProcessorRef : option ScriptProcessorNode;
  sessionPromiseRef : option SessionPromise;
  nextStartTimeRef : Q;
  sourcesRef : list AudioBufferSourceNode;
  currentInputTranscriptionRef : string;
  currentOutputTranscriptionRef : string
}.

(** The values given to [useState] and [useRef]. *)
Definition initialState : State :=
  {| isConnected := false;
     messages := [];
     volume := 0%R;
     error := None;
     inputAudioContextRef := None;
     outputAudioContextRef := None;
     mediaStreamRef := None;
     scriptProcessorRef := None;
     sessionPromiseRef := None;
     nextStartTimeRef := 0%Q;
     sourcesRef := [];
     currentInputTranscriptionRef := EmptyString;
     currentOutputTranscriptionRef := EmptyString |}.

Definition set_isConnected (v : bool) (s : State) : State :=
  mkState v (messages s) (volume s) (error s) (inputAudioContextRef s)
    (outputAudioContextRef s) (mediaStreamRef s) (scriptProcessorRef s)
    (sessionPromiseRef s) (nextStartTimeRef s) (sourcesRef s)
    (currentInputTranscriptionRef s) (currentOutputTranscriptionRef s).

Definition set_messages (f : list Message -> list Message) (s : State) : State :=
  mkState (isConnected s) (f (messages s)) (volume s) (error s) (inputAudioContextRef s)
    (outputAudioContextRef s) (mediaStreamRef s) (scriptProcessorRef s)
    (sessionPromiseRef s) (nextStartTimeRef s) (sourcesRef s)
    (currentInputTranscriptionRef s) (currentOutputTranscriptionRef s).

Definition set_volume (v : R) (s : State) : State :=
  mkState (isConnected s) (messages s) v (error s) (inputAudioContextRef s)
    (outputAudioContextRef s) (mediaStreamRef s) (scriptProcessorRef s)
    (sessionPromiseRef s) (nextStartTimeRef s) (sourcesRef s)
    (currentInputTranscriptionRef s) (currentOutputTranscriptionRef s).

Definition set_error (v : option string) (s : State) : State :=
  mkState (isConnected s) (messages s) (volume s) v (inputAudioContextRef s)
    (outputAudioContextRef s) (mediaStreamRef s) (scriptProcessorRef s)
    (sessionPromiseRef s) (nextStartTimeRef s) (sourcesRef s)
    (currentInputTranscriptionRef s) (currentOutputTranscriptionRef s).

Definition set_inputAudioContextRef (v : option AudioContext) (s : State) : State :=
  mkState (isConnected s) (messages s) (volume s) (error s) v
    (outputAudioContextRef s) (mediaStreamRef s) (scriptProcessorRef s)
    (sessionPromiseRef s) (nextStartTimeRef s) (sourcesRef s)
    (currentInputTranscriptionRef s) (currentOutputTranscriptionRef s).

Definition set_outputAudioContextRef (v : option AudioContext) (s : State) : State :=
  mkState (isConnected s) (messages s) (volume s) (error s) (inputAudioContextRef s)
    v (mediaStreamRef s) (scriptProcessorRef s)
    (sessionPromiseRef s) (nextStartTimeRef s) (sourcesRef s)
    (currentInputTranscriptionRef s) (currentOutputTranscriptionRef s).

Definition set_mediaStreamRef (v : option MediaStream) (s : State) : State :=
  mkState (isConnected s) (messages s) (volume s) (error s) (inputAudioContextRef s)
    (outputAudioContextRef s) v (scriptProcessorRef s)
    (sessionPromiseRef s) (nextStartTimeRef s) (sourcesRef s)
    (currentInputTranscriptionRef s) (currentOutputTranscriptionRef s).

Definition set_scriptProcessorRef (v : option ScriptProcessorNode) (s : State) : State :=
  mkState (isConnected s) (messages s) (volume s) (error s) (inputAudioContextRef s)
    (outputAudioContextRef s) (mediaStreamRef s) v
    (sessionPromiseRef s) (nextStartTimeRef s) (sourcesRef s)
    (currentInputTranscriptionRef s) (currentOutputTranscriptionRef s).

Definition set_sessionPromiseRef (v : option SessionPromise) (s : State) : State :=
  mkState (isConnected s) (messages s) (volume s) (error s) (inputAudioContextRef s)
    (outputAudioContextRef s) (mediaStreamRef s) (scriptProcessorRef s)
    v (nextStartTimeRef s) (sourcesRef s)
    (currentInputTranscriptionRef s) (currentOutputTranscriptionRef s).

Definition set_nextStartTimeRef (v : Q) (s : State) : State :=
  mkState (isConnected s) (messages s) (volume s) (error s) (inputAudioContextRef s)
    (outputAudioContextRef s) (mediaStreamRef s) (scriptProcessorRef s)
    (sessionPromiseRef s) v (sourcesRef s)
    (currentInputTranscriptionRef s) (currentOutputTranscriptionRef s).

Definition set_sourcesRef (f : list AudioBufferSourceNode -> list AudioBufferSourceNode)
    (s : State) : State :=
  mkState (isConnected s) (messages s) (volume s) (error s) (inputAudioContextRef s)
    (outputAudioContextRef s) (mediaStreamRef s) (scriptProcessorRef s)
    (sessionPromiseRef s) (nextStartTimeRef s) (f (sourcesRef s))
    (currentInputTranscriptionRef s) (currentOutputTranscriptionRef s).

Definition set_currentInputTranscriptionRef (v : string) (s : State) : State :=
  mkState (isConnected s) (messages s) (volume s) (error s) (inputAudioContextRef s)
    (outputAudioContextRef s) (mediaStreamRef s) (scriptProcessorRef s)
    (sessionPromiseRef s) (nextStartTimeRef s) (sourcesRef s)
    v (currentOutputTranscriptionRef s).

Definition set_currentOutputTranscriptionRef (v : string) (s : State) : State :=
  mkState (isConnected s) (messages s) (volume s) (error s) (inputAudioContextRef s)
    (outputAudioContextRef s) (mediaStreamRef s) (scriptProcessorRef s)
    (sessionPromiseRef s) (nextStartTimeRef s) (sourcesRef s)
    (currentInputTranscriptionRef s) v.


(* ===================================================================== *)
(** ** Handlers as computations                                            *)

(** A handler reads and writes the state, performs platform operations and
    may end with an exception.  What it wrote and performed before throwing
    stays: nothing is rolled back. *)
(* ===================================================================== *)

Record Outcome (A : Type) : Type := mkOutcome {
  final : State;
  trace : list Op;
  result : JS.Exn + A
}.

Definition M (A : Type) : Type := State -> Outcome A.

Definition ret {A : Type} (a : A) : M A :=
  fun s => mkOutcome s [] (inr a).

Definition bind {A B : Type} (c : M A) (k : A -> M B) : M B :=
  fun s =>
    match c s with
    | mkOutcome s1 t1 (inl e) => mkOutcome s1 t1 (inl e)
    | mkOutcome s1 t1 (inr a) =>
        match k a s1 with
        | mkOutcome s2 t2 r => mkOutcome s2 (t1 ++ t2) r
        end
    end.

Declare Scope hook_scope.
Delimit Scope hook_scope with hook.
Notation "x <- c ;; k" := (bind c (fun x => k))
  (at level 61, c at next level, right associativity) : hook_scope.
Notation "c ;; k" := (bind c (fun _ => k))
  (at level 61, right associativity) : hook_scope.
Local Open Scope hook_scope.

Definition get : M State :=
  fun s => mkOutcome s [] (inr s).

Definition modify (f : State -> State) : M unit :=
  fun s => mkOutcome (f s) [] (inr tt).

Definition perform (o : Op) : M unit :=
  fun s => mkOutcome s [o] (inr tt).

Definition throw {A : Type} (e : JS.Exn) : M A :=
  fun s => mkOutcome s [] (inl e).

(** [try { body } catch (e) { handler e }] *)
Definition tryCatch {A : Type} (body : M A) (handler : JS.Exn -> M A) : M A :=
  fun s =>
    match body s with
    | mkOutcome s1 t1 (inl e) =>
        match handler e s1 with
        | mkOutcome s2 t2 r => mkOutcome s2 (t1 ++ t2) r
        end
    | mkOutcome s1 t1 (inr a) => mkOutcome s1 t1 (inr a)
    end.

(** [for (const x of xs) { body x }] *)
Fixpoint forOf {A : Type} (xs : list A) (body : A -> M unit) : M unit :=
  match xs with
  | [] => ret tt
  | x :: tl => body x ;; forOf tl body
  end.

(** [if (ref.current) { k ref.current }] *)
Definition whenSet {A : Type} (ref : State -> option A) (k : A -> M unit) : M unit :=
  s <- get ;;
  match ref s with
  | Some a => k a
  | None => ret tt
  end.

(** A platform call that throws when the platform says so. *)
Definition call (o : Op) (throws : option JS.Exn) : M unit :=
  perform o ;;
  match throws with
  | Some e => throw e
  | None => ret tt
  end.

(* ===================================================================== *)
(** ** [useGeminiLive]: teardown                                           *)
(* ===================================================================== *)

(** [try { source.stop(); } catch (e) { /* ignore */ }]
    [stopThrows] tells for which sources the platform makes [stop()] throw. *)
Definition stopQuietly (stopThrows : AudioBufferSourceNode -> option JS.Exn)
    (source : AudioBufferSourceNode) : M unit :=
  tryCatch (call (SourceStop source) (stopThrows source)) (fun _ => ret tt).

(** [for (const source of sourcesRef.current) { try { source.stop(); }
    catch (e) {} }  sourcesRef.current.clear();]
    The loop occurs twice in the source, in [disconnect] (step 4, under
    [if (sourcesRef.current)], which always holds: the ref is a [Set]) and
    in the interruption branch of [onmessage]. *)
Definition stopAllSources (stopThrows : AudioBufferSourceNode -> option JS.Exn) : M unit :=
  s <- get ;;
  forOf (sourcesRef s) (stopQuietly stopThrows) ;;
  modify (set_sourcesRef (fun _ => [])).

(** [disconnect].  [AudioContext.close()] returns a promise, [track.stop()]
    and [node.disconnect()] do not throw.  Step 5 does not close the
    session: it attaches to the session promise a continuation that will
    call [session.close()], followed by [.catch(() => {})], and clears the
    ref.  The continuation runs after the synchronous code of the caller,
    and only if the promise is fulfilled ([worldStep]). *)
Definition disconnect (stopThrows : AudioBufferSourceNode -> option JS.Exn) : M unit :=
  (* 1. Close audio contexts *)
  whenSet inputAudioContextRef (fun c =>
    perform (AudioContextClose c) ;;
    modify (set_inputAudioContextRef None)) ;;
  whenSet outputAudioContextRef (fun c =>
    perform (AudioContextClose c) ;;
    modify (set_outputAudioContextRef None)) ;;
  (* 2. Stop media stream *)
  whenSet mediaStreamRef (fun m =>
    perform (StopTracks m) ;;
    modify (set_mediaStreamRef None)) ;;
  (* 3. Disconnect ScriptProcessor *)
  whenSet scriptProcessorRef (fun p =>
    perform (ProcessorDisconnect p) ;;
    modify (set_scriptProcessorRef None)) ;;
  (* 4. Stop all playing sources *)
  stopAllSources stopThrows ;;
  (* 5. Close session if possible *)
  whenSet sessionPromiseRef (fun p =>
    perform (ThenClose p) ;;
    modify (set_sessionPromiseRef None)) ;;
  modify (set_isConnected false) ;;
  modify (set_volume 0%R) ;;
  (* Reset transcription refs *)
  modify (set_currentInputTranscriptionRef EmptyString) ;;
  modify (set_currentOutputTranscriptionRef EmptyString).

(* ===================================================================== *)
(** ** [useGeminiLive]: session acquisition                                *)
(* ===================================================================== *)

Record UseGeminiLiveProps : Type := mkProps {
  systemInstruction : string;
  voiceName : string
}.

(** What the platform answers to the synchronous part of [connect]. *)
Record ConnectEnv : Type := mkConnectEnv {
  connectStopThrows : AudioBufferSourceNode -> option JS.Exn;
  inputContext : JS.Exn + AudioContext;
  outputContext : JS.Exn + AudioContext;
  genAI : option JS.Exn
}.

(** A constructor or call that yields a handle or throws. *)
Definition construct {A : Type} (o : Op) (r : JS.Exn + A) : M A :=
  perform o ;;
  match r with
  | inl e => throw e
  | inr a => ret a
  end.

(** [await p] once [p] has settled. *)
Definition awaited {A : Type} (r : JS.Exn + A) : M A :=
  match r with
  | inl e => throw e
  | inr a => ret a
  end.

(** The [catch (err)] block of [connect]. *)
Definition connectCatch (err : JS.Exn) : M unit :=
  modify (set_error (Some (JS.orElse (JS.message err) "Failed to connect"%string))) ;;
  modify (set_isConnected false).

(** [connect] up to [await navigator.mediaDevices.getUserMedia(...)].
    Returns [true] when it is suspended at the [await], [false] when the
    [catch] block ran. *)
Definition connect (env : ConnectEnv) : M bool :=
  (* Ensure previous session is cleaned up *)
  disconnect (connectStopThrows env) ;;
  tryCatch
    (modify (set_error None) ;;
     (* Initialize Audio Contexts *)
     cin <- construct (NewAudioContext 16000) (inputContext env) ;;
     modify (set_inputAudioContextRef (Some cin)) ;;
     cout <- construct (NewAudioContext 24000) (outputContext env) ;;
     modify (set_outputAudioContextRef (Some cout)) ;;
     (* Initialize Gemini Client *)
     call NewGoogleGenAI (genAI env) ;;
     perform GetUserMedia ;;
     ret true)
    (fun err => connectCatch err ;; ret false).

(** [connect] from the point where the promise of [getUserMedia] has
    settled with [settled]; [live] is what [ai.live.connect(...)] answers
    synchronously, a session promise or an exception. *)
Definition connect_resume (props : UseGeminiLiveProps)
    (settled : JS.Exn + MediaStream) (live : JS.Exn + SessionPromise) : M unit :=
  tryCatch
    (stream <- awaited settled ;;
     modify (set_mediaStreamRef (Some stream)) ;;
     sessionPromise <-
       construct (LiveConnect (voiceName props) (systemInstruction props)) live ;;
     modify (set_sessionPromiseRef (Some sessionPromise)))
    connectCatch.

(* ===================================================================== *)
(** ** [useGeminiLive]: the session callbacks                              *)
(* ===================================================================== *)

(** [onopen]; [processor] is the node [createScriptProcessor] returns. *)
Definition onopen (processor : ScriptProcessorNode) : M unit :=
  modify (set_isConnected true) ;;
  s <- get ;;
  match inputAudioContextRef s, mediaStreamRef s with
  | Some c, Some m =>
      perform (CreateMediaStreamSource c m) ;;
      perform (CreateScriptProcessor c 4096 processor) ;;
      modify (set_scriptProcessorRef (Some processor)) ;;
      perform (ConnectProcessor c processor)
  | _, _ => ret tt
  end.

(** The loop [let sum = 0; for (...) sum += inputData[i] * inputData[i];] *)
Definition sumOfSquares (inputData : list R) : R :=
  fold_left (fun sum x => (sum + x * x)%R) inputData 0%R.

(** [Math.min(1, Math.sqrt(sum / inputData.length) * 5)] *)
Definition loudness (inputData : list R) : R :=
  Rmin 1 (sqrt (sumOfSquares inputData / INR (List.length inputData)) * 5).

(** [processor.onaudioprocess].  The frame is handed to the session promise
    of the enclosing [connect] call, [sessionPromise.then(session =>
    session.sendRealtimeInput({ media: pcmBlob }))]. *)
Definition onaudioprocess (inputData : list R) : M unit :=
  modify (set_volume (loudness inputData)) ;;
  perform (ThenSendRealtimeInput (List.length inputData)).

(** The fields of a [LiveServerMessage] that [onmessage] reads, each under
    the path it is read by. *)
Record LiveServerMessage : Type := mkLiveServerMessage {
  (** [serverContent?.modelTurn?.parts[0]?.inlineData?.data] *)
  base64Audio : option string;
  (** [serverContent?.outputTranscription?.text] *)
  outputTranscription : option string;
  (** [serverContent?.inputTranscription?.text] *)
  inputTranscription : option string;
  (** [serverContent?.turnComplete] *)
  turnComplete : option bool;
  (** [serverContent?.interrupted] *)
  interrupted : option bool
}.

(** What the platform answers while one message is handled. *)
Record MessageEnv : Type := mkMessageEnv {
  (** [ctx.currentTime] when the audio branch reads it *)
  currentTime : AudioContext -> Q;
  (** [audioBuffer.duration] of the buffer [decodeAudioData] returns *)
  bufferDuration : Q;
  (** the node [ctx.createBufferSource()] returns *)
  bufferSource : AudioBufferSourceNode;
  (** [Date.now()] and [new Date()] in the output-transcription branch *)
  outputNow : Z;
  outputDate : Z;
  (** [Date.now()] and [new Date()] in the input-transcription branch *)
  inputNow : Z;
  inputDate : Z;
  stopThrows : AudioBufferSourceNode -> option JS.Exn;
  (** [outputAudioContextRef.current.currentTime] in the interruption branch *)
  currentTimeAtInterrupt : AudioContext -> Q
}.

(** [Set.prototype.add] and [Set.prototype.delete]; a [Set] iterates in
    insertion order. *)
Definition setAdd (x : AudioBufferSourceNode) (l : list AudioBufferSourceNode) :=
  if existsb (Nat.eqb x) l then l else l ++ [x].

Definition setDelete (x : AudioBufferSourceNode) (l : list AudioBufferSourceNode) :=
  filter (fun y => negb (Nat.eqb x y)) l.

(** Handle Audio Output *)
Definition handleAudio (env : MessageEnv) (message : LiveServerMessage) : M unit :=
  s <- get ;;
  match base64Audio message, outputAudioContextRef s with
  | Some data, Some ctx =>
      if JS.truthyString data then
        modify (fun s => set_nextStartTimeRef
                           (Qmax (nextStartTimeRef s) (currentTime env ctx)) s) ;;
        let source := bufferSource env in
        perform (CreateBufferSource ctx source) ;;
        s <- get ;;
        perform (SourceStart source (nextStartTimeRef s)) ;;
        modify (fun s => set_nextStartTimeRef
                           (nextStartTimeRef s + bufferDuration env)%Q s) ;;
        modify (set_sourcesRef (setAdd source))
      else ret tt
  | _, _ => ret tt
  end.

(** [{ id: Date.now().toString(), role, text, timestamp: new Date(),
       isPartial: true }] *)
Definition partialMessage (r : Role) (t : string) (now date : Z) : Message :=
  {| id := JS.toString now; role := r; text := t;
     timestamp := date; isPartial := Some true |}.

(** The updater given to [setMessages] in both transcription branches, with
    [current] the value of the role's accumulation ref. *)
Definition accumulate (r : Role) (current : string) (now date : Z)
    (prev : list Message) : list Message :=
  match JS.lastOf prev with
  | Some last =>
      if Role_eqb (role last) r && JS.truthyFlag (isPartial last)
      then JS.sliceInit prev ++ [withText current last]
      else prev ++ [partialMessage r current now date]
  | None => prev ++ [partialMessage r current now date]
  end.

(** Handle Transcriptions: output *)
Definition handleOutputTranscription (env : MessageEnv) (message : LiveServerMessage)
    : M unit :=
  match outputTranscription message with
  | Some t =>
      if JS.truthyString t then
        modify (fun s => set_currentOutputTranscriptionRef
                           (currentOutputTranscriptionRef s ++ t)%string s) ;;
        modify (fun s => set_messages
                           (accumulate model (currentOutputTranscriptionRef s)
                              (outputNow env) (outputDate env)) s)
      else ret tt
  | None => ret tt
  end.

(** Handle Transcriptions: input *)
Definition handleInputTranscription (env : MessageEnv) (message : LiveServerMessage)
    : M unit :=
  match inputTranscription message with
  | Some t =>
      if JS.truthyString t then
        modify (fun s => set_currentInputTranscriptionRef
                           (currentInputTranscriptionRef s ++ t)%string s) ;;
        modify (fun s => set_messages
                           (accumulate user (currentInputTranscriptionRef s)
                              (inputNow env) (inputDate env)) s)
      else ret tt
  | None => ret tt
  end.

(** [setMessages(prev => prev.map(m => ({ ...m, isPartial: false })))] and
    the reset of both accumulation refs. *)
Definition finalizeTranscript : M unit :=
  modify (set_messages (map finalized)) ;;
  modify (set_currentInputTranscriptionRef EmptyString) ;;
  modify (set_currentOutputTranscriptionRef EmptyString).

(** Handle Turn Complete *)
Definition handleTurnComplete (message : LiveServerMessage) : M unit :=
  if JS.truthyFlag (turnComplete message) then finalizeTranscript else ret tt.

(** Handle Interrupted *)
Definition handleInterrupted (env : MessageEnv) (message : LiveServerMessage) : M unit :=
  if JS.truthyFlag (interrupted message) then
    (* Stop all playing audio *)
    stopAllSources (stopThrows env) ;;
    (* Reset time to current context time *)
    whenSet outputAudioContextRef (fun ctx =>
      modify (set_nextStartTimeRef (currentTimeAtInterrupt env ctx))) ;;
    (* Mark current message as final *)
    finalizeTranscript
  else ret tt.

(** [onmessage] *)
Definition onmessage (env : MessageEnv) (message : LiveServerMessage) : M unit :=
  handleAudio env message ;;
  handleOutputTranscription env message ;;
  handleInputTranscription env message ;;
  handleTurnComplete message ;;
  handleInterrupted env message.

(** [onerror] *)
Definition onerror (e : JS.Exn) : M unit :=
  modify (set_error (Some (JS.orElse (JS.message e) "An error occurred"%string))) ;;
  modify (set_isConnected false).

(** [onclose] *)
Definition onclose : M unit :=
  modify (set_isConnected false).

(** The listener [source.addEventListener('ended', ...)] *)
Definition onended (source : AudioBufferSourceNode) : M unit :=
  modify (set_sourcesRef (setDelete source)).

(* ===================================================================== *)
(** ** The event loop                                                      *)
(* ===================================================================== *)

Inductive Event : Type :=
| Connect (env : ConnectEnv)
| ConnectResume (props : UseGeminiLiveProps)
    (settled : JS.Exn + MediaStream) (live : JS.Exn + SessionPromise)
| Disconnect (stopThrows : AudioBufferSourceNode -> option JS.Exn)
| OnOpen (processor : ScriptProcessorNode)
| OnAudioProcess (inputData : list R)
| OnMessage (env : MessageEnv) (message : LiveServerMessage)
| OnError (e : JS.Exn)
| OnClose
| OnEnded (source : AudioBufferSourceNode).

Definition handle (e : Event) : M unit :=
  match e with
  | Connect env => connect env ;; ret tt
  | ConnectResume props settled live => connect_resume props settled live
  | Disconnect stopThrows => disconnect stopThrows
  | OnOpen processor => onopen processor
  | OnAudioProcess inputData => onaudioprocess inputData
  | OnMessage env message => onmessage env message
  | OnError e => onerror e
  | OnClose => onclose
  | OnEnded source => onended source
  end.

(** The state after a sequence of events, from [s].  An exception that
    escapes a handler is reported by the runtime and the loop goes on. *)
Fixpoint exec (es : list Event) (s : State) : State :=
  match es with
  | [] => s
  | e :: tl => exec tl (final (handle e s))
  end.


(* ===================================================================== *)
(** ** The session promise                                                 *)
(* ===================================================================== *)

(** How the promise returned by [ai.live.connect] settles. *)
Inductive Settlement : Type :=
| Fulfilled
| Rejected (reason : JS.Exn).

(** The hook together with what the runtime knows of the session promises:
    how each settled promise has settled, and the close continuations
    attached (by [disconnect]) to promises that have not settled yet, in
    the order of attachment. *)
Record World : Type := mkWorld {
  hook : State;
  settlements : list (SessionPromise * Settlement);
  waiting : list SessionPromise
}.

Definition initialWorld : World := mkWorld initialState [] [].

Definition settlementOf (p : SessionPromise) (w : World) : option Settlement :=
  match find (fun x => Nat.eqb (fst x) p) (settlements w) with
  | Some x => Some (snd x)
  | None => None
  end.

Definition isFulfilled (w : World) (p : SessionPromise) : bool :=
  match settlementOf p w with
  | Some Fulfilled => true
  | _ => false
  end.

Definition isPending (w : World) (p : SessionPromise) : bool :=
  match settlementOf p w with
  | None => true
  | Some _ => false
  end.

(** The promises to which a run of operations attaches the close
    continuation of [disconnect]. *)
Definition closesAttached (ops : list Op) : list SessionPromise :=
  flat_map (fun o => match o with ThenClose p => [p] | _ => [] end) ops.

Inductive WorldEvent : Type :=
| Hook (ev : Event)
| Settles (p : SessionPromise) (how : Settlement).

(** One step of the world, with the operations performed.
    - A handler of the hook runs to its end (for [connect], to its
      [await]); the close continuations it attached to promises that are
      already fulfilled run next, when its synchronous code is over.  Those
      attached to a pending promise wait.  Those attached to a rejected
      promise never run: [then] skips them and the empty [catch] absorbs
      the rejection.
    - When a pending promise is fulfilled, the waiting continuations close
      its session.  When it is rejected nothing runs: [connect] attaches no
      continuation to the promise, [onaudioprocess] only a [then], and
      [disconnect] a [then] followed by an empty [catch].  The state of the
      hook is not touched either way, no continuation writes to it.
    - A promise settles once.
    The session a fulfilled promise yields is the SDK's session object,
    which has a [close] method, so the guard inside the continuation holds.
    The continuations of [onaudioprocess] hand a frame to the session and
    do nothing else; the world does not follow them. *)
Definition worldStep (we : WorldEvent) (w : World) : World * list Op :=
  match we with
  | Hook ev =>
      let o := handle ev (hook w) in
      let attached := closesAttached (trace o) in
      (mkWorld (final o) (settlements w)
         (waiting w ++ filter (isPending w) attached),
       trace o ++ map SessionClose (filter (isFulfilled w) attached))
  | Settles p how =>
      match settlementOf p w with
      | Some _ => (w, [])
      | None =>
          (mkWorld (hook w) ((p, how) :: settlements w)
             (filter (fun q => negb (Nat.eqb q p)) (waiting w)),
           match how with
           | Fulfilled => map SessionClose (filter (Nat.eqb p) (waiting w))
           | Rejected _ => []
           end)
      end
  end.

(** The world after a sequence of events, and everything performed. *)
Fixpoint worldRun (wes : list WorldEvent) (w : World) : World * list Op :=
  match wes with
  | [] => (w, [])
  | we :: tl =>
      let r := worldStep we w in
      let r' := worldRun tl (fst r) in
      (fst r', snd r ++ snd r')
  end.

(* ===================================================================== *)
(** ** [src/types.ts]: scenarios                                           *)
(* ===================================================================== *)

Module Universe.

Inductive UniverseType : Type := fantasy | scifi | noir | post_apoc.

(** The voices a scenario may name; [voiceString] is the string literal. *)
Inductive VoiceName : Type := Puck | Charon | Kore | Fenrir | Zephyr.

Definition voiceString (v : VoiceName) : string :=
  match v with
  | Puck => "Puck"
  | Charon => "Charon"
  | Kore => "Kore"
  | Fenrir => "Fenrir"
  | Zephyr => "Zephyr"
  end.

Record UniverseConfig : Type := mkUniverseConfig {
  id : UniverseType;
  title : string;
  description : string;
  icon : string;
  initialPrompt : string;
  color : string;
  voiceName : VoiceName
}.

End Universe.

(* ===================================================================== *)
(** ** The component [App]                                                 *)

(** Besides its own state cell [activeUniverse], the component owns one
    instance of the hook.  Two kinds of continuations are pending between
    events: the callbacks given to [setTimeout] by [handleRestart], each
    with the scenario it captured, and the calls of [connect] suspended at
    [await getUserMedia], each with its props.  Timers of equal delay fire
    in the order they were set; suspended calls are resumed in the order
    they were made. *)
(* ===================================================================== *)

Record AppState : Type := mkAppState {
  activeUniverse : option Universe.UniverseConfig;
  session : State;
  timers : list Universe.UniverseConfig;
  suspended : list UseGeminiLiveProps
}.

Definition initialApp : AppState :=
  {| activeUniverse := None; session := initialState;
     timers := []; suspended := [] |}.

Definition set_activeUniverse (v : option Universe.UniverseConfig) (a : AppState)
    : AppState :=
  mkAppState v (session a) (timers a) (suspended a).

Definition set_session (v : State) (a : AppState) : AppState :=
  mkAppState (activeUniverse a) v (timers a) (suspended a).

Definition set_timers (v : list Universe.UniverseConfig) (a : AppState) : AppState :=
  mkAppState (activeUniverse a) (session a) v (suspended a).

Definition set_suspended (v : list UseGeminiLiveProps) (a : AppState) : AppState :=
  mkAppState (activeUniverse a) (session a) (timers a) v.

(** A call into the hook from a handler of the component. *)
Definition inSession {A : Type} (c : M A) (a : AppState)
    : AppState * list Op * (JS.Exn + A) :=
  match c (session a) with
  | mkOutcome s ops r => (set_session s a, ops, r)
  end.

(** The props [handleStartGame] gives to [connect]. *)
Definition propsOf (universe : Universe.UniverseConfig) : UseGeminiLiveProps :=
  {| systemInstruction := Universe.initialPrompt universe;
     voiceName := Universe.voiceString (Universe.voiceName universe) |}.

(** [handleStartGame], up to the point where [connect] is suspended. *)
Definition handleStartGame (env : ConnectEnv) (universe : Universe.UniverseConfig)
    (a : AppState) : AppState * list Op :=
  match inSession (connect env) (set_activeUniverse (Some universe) a) with
  | (a1, ops, inr true) =>
      (set_suspended (suspended a1 ++ [propsOf universe]) a1, ops)
  | (a1, ops, _) => (a1, ops)
  end.

(** [handleEndGame] *)
Definition handleEndGame (stopThrows : AudioBufferSourceNode -> option JS.Exn)
    (a : AppState) : AppState * list Op :=
  match inSession (disconnect stopThrows) a with
  | (a1, ops, inr _) => (set_activeUniverse None a1, ops)
  | (a1, ops, inl _) => (a1, ops)
  end.

(** [handleRestart]: the timer callback captures [activeUniverse]. *)
Definition handleRestart (stopThrows : AudioBufferSourceNode -> option JS.Exn)
    (a : AppState) : AppState * list Op :=
  match activeUniverse a with
  | Some universe =>
      match inSession (disconnect stopThrows) a with
      | (a1, ops, inr _) => (set_timers (timers a1 ++ [universe]) a1, ops)
      | (a1, ops, inl _) => (a1, ops)
      end
  | None => (a, [])
  end.

(** The callback of the oldest timer runs: [handleStartGame(activeUniverse)]
    with the scenario captured when the timer was set. *)
Definition timerFires (env : ConnectEnv) (a : AppState) : AppState * list Op :=
  match timers a with
  | universe :: rest => handleStartGame env universe (set_timers rest a)
  | [] => (a, [])
  end.

(** The promise of [getUserMedia] of the oldest suspended [connect]
    settles and the call is resumed. *)
Definition microphoneSettles (settled : JS.Exn + MediaStream)
    (live : JS.Exn + SessionPromise) (a : AppState) : AppState * list Op :=
  match suspended a with
  | props :: rest =>
      match inSession (connect_resume props settled live) (set_suspended rest a) with
      | (a1, ops, _) => (a1, ops)
      end
  | [] => (a, [])
  end.

(** A callback of the session or of the platform. *)
Definition callback (ev : Event) (a : AppState) : AppState * list Op :=
  match inSession (handle ev) a with
  | (a1, ops, _) => (a1, ops)
  end.

Inductive AppEvent : Type :=
| ClickUniverse (env : ConnectEnv) (universe : Universe.UniverseConfig)
| ClickExit (stopThrows : AudioBufferSourceNode -> option JS.Exn)
| ClickRestart (stopThrows : AudioBufferSourceNode -> option JS.Exn)
| TimerFires (env : ConnectEnv)
| MicrophoneSettles (settled : JS.Exn + MediaStream) (live : JS.Exn + SessionPromise)
| Callback (ev : Event).

Definition appStep (ev : AppEvent) (a : AppState) : AppState * list Op :=
  match ev with
  | ClickUniverse env universe => handleStartGame env universe a
  | ClickExit stopThrows => handleEndGame stopThrows a
  | ClickRestart stopThrows => handleRestart stopThrows a
  | TimerFires env => timerFires env a
  | MicrophoneSettles settled live => microphoneSettles settled live a
  | Callback ev => callback ev a
  end.

Fixpoint appRun (evs : list AppEvent) (a : AppState) : AppState :=
  match evs with
  | [] => a
  | ev :: tl => appRun tl (fst (appStep ev a))
  end.

(** *** What [App] renders *)

Inductive Screen : Type :=
| UniverseSelection
| ActiveGame (universe : Universe.UniverseConfig).

(** [if (!activeUniverse) return <selection>; return <game>;] *)
Definition screen (a : AppState) : Screen :=
  match activeUniverse a with
  | None => UniverseSelection
  | Some universe => ActiveGame universe
  end.

(** The text under the visualizer:
    [error ? error : (isConnected ? "Listening... Speak to play" : "Connecting...")] *)
Definition statusLine (s : State) : string :=
  if JS.truthyText (error s) then
    match error s with
    | Some e => e
    | None => EmptyString
    end
  else if isConnected s then "Listening... Speak to play" else "Connecting...".

(** [messages.length === 0 && isConnected]: the placeholder is shown. *)
Definition summoning (s : State) : bool :=
  Nat.eqb (List.length (messages s)) 0 && isConnected s.

(** [key={msg.id + index}] for every rendered message. *)
Fixpoint keysFrom (index : nat) (ms : list Message) : list string :=
  match ms with
  | [] => []
  | msg :: tl =>
      (id msg ++ JS.toString (Z.of_nat index))%string :: keysFrom (S index) tl
  end.

Definition messageKeys (ms : list Message) : list string := keysFrom 0 ms.

(** [transform: scale(1 + volume * 1.5)] of the glow. *)
Definition glowScale (v : R) : R := (1 + v * 1.5)%R.

(** [Math.max(4, Math.random() * (volume * 40 + 10))], the height of a bar,
    with [random] the value of [Math.random()]. *)
Definition barHeight (random v : R) : R :=
  Rmax 4 (random * (v * 40 + 10)).
(* ===================================================================== *)
(** ** Vocabulary of the properties                                      *)
(* ===================================================================== *)

(** The operation performed on a ref that is set. *)
Definition onSet {A : Type} (op : A -> Op) (ref : option A) : list Op :=
  match ref with
  | Some a => [op a]
  | None => []
  end.

(** The state [disconnect] leaves. *)
Definition tornDown (s : State) : State :=
  {| isConnected := false;
     messages := messages s;
     volume := 0%R;
     error := error s;
     inputAudioContextRef := None;
     outputAudioContextRef := None;
     mediaStreamRef := None;
     scriptProcessorRef := None;
     sessionPromiseRef := None;
     nextStartTimeRef := nextStartTimeRef s;
     sourcesRef := [];
     currentInputTranscriptionRef := EmptyString;
     currentOutputTranscriptionRef := EmptyString |}.

(** The operations [disconnect] performs: the releases, and the attachment
    of the close continuation to the session promise. *)
Definition teardownOps (s : State) : list Op :=
  onSet AudioContextClose (inputAudioContextRef s) ++
  onSet AudioContextClose (outputAudioContextRef s) ++
  onSet StopTracks (mediaStreamRef s) ++
  onSet ProcessorDisconnect (scriptProcessorRef s) ++
  map SourceStop (sourcesRef s) ++
  onSet ThenClose (sessionPromiseRef s).

(** Every resource reference is null and no playback unit is tracked. *)
Definition allReleased (s : State) : Prop :=
  inputAudioContextRef s = None /\
  outputAudioContextRef s = None /\
  mediaStreamRef s = None /\
  scriptProcessorRef s = None /\
  sessionPromiseRef s = None /\
  sourcesRef s = [].

(** The first step of the synchronous part of [connect] that throws. *)
Definition connectFailure (env : ConnectEnv) : option JS.Exn :=
  match inputContext env with
  | inl e => Some e
  | inr _ =>
      match outputContext env with
      | inl e => Some e
      | inr _ => genAI env
      end
  end.

(** The first step of the resumed part of [connect] that throws. *)
Definition resumeFailure (settled : JS.Exn + MediaStream)
    (live : JS.Exn + SessionPromise) : option JS.Exn :=
  match settled with
  | inl e => Some e
  | inr _ =>
      match live with
      | inl e => Some e
      | inr _ => None
      end
  end.

(** The failure an event delivers to a handler of the hook: an exception
    raised inside the [try] block of [connect] (a constructor, the rejected
    promise of the awaited [getUserMedia], a synchronous throw of
    [ai.live.connect]), or the argument of [onerror].  The rejection of the
    promise that [ai.live.connect] returns is not among them: it is
    delivered to no handler and is no [Event] but a step of the world,
    [Settles p (Rejected reason)]. *)
Definition failureOf (ev : Event) : option JS.Exn :=
  match ev with
  | Connect env => connectFailure env
  | ConnectResume _ settled live => resumeFailure settled live
  | OnError e => Some e
  | _ => None
  end.

(** The text surfaced when the failure carries no usable [message]. *)
Definition fallbackText (ev : Event) : string :=
  match ev with
  | OnError _ => "An error occurred"
  | _ => "Failed to connect"
  end.


(** An event after which [disconnect] has run: [disconnect] itself, and
    [connect], whose first statement calls it. *)
Definition isTeardown (ev : Event) : bool :=
  match ev with
  | Disconnect _ | Connect _ => true
  | _ => false
  end.

(** A terminal event of the remote session. *)
Definition isRemoteEnd (ev : Event) : bool :=
  match ev with
  | OnError _ | OnClose => true
  | _ => false
  end.


(** *** [onmessage], branch by branch *)

(** The audio branch is taken: a non-empty payload and an output context. *)
Definition audible (message : LiveServerMessage) (s : State) : bool :=
  match base64Audio message, outputAudioContextRef s with
  | Some data, Some _ => JS.truthyString data
  | _, _ => false
  end.

(** The time at which the unit of a message is started, on the clock of
    the output context [ctx]. *)
Definition startTime (env : MessageEnv) (ctx : AudioContext) (s : State) : Q :=
  Qmax (nextStartTimeRef s) (currentTime env ctx).

Definition afterAudio (env : MessageEnv) (message : LiveServerMessage) (s : State)
    : State :=
  match outputAudioContextRef s with
  | Some ctx =>
      if audible message s then
        set_sourcesRef (setAdd (bufferSource env))
          (set_nextStartTimeRef (startTime env ctx s + bufferDuration env)%Q s)
      else s
  | None => s
  end.

Definition audioOps (env : MessageEnv) (message : LiveServerMessage) (s : State)
    : list Op :=
  match base64Audio message, outputAudioContextRef s with
  | Some data, Some ctx =>
      if JS.truthyString data then
        [CreateBufferSource ctx (bufferSource env);
         SourceStart (bufferSource env) (startTime env ctx s)]
      else []
  | _, _ => []
  end.

(** The two transcription streams. *)
Inductive Direction : Type := Output | Input.

Definition roleOf (d : Direction) : Role :=
  match d with
  | Output => model
  | Input => user
  end.

(** The accumulation ref of a stream. *)
Definition currentTranscription (d : Direction) (s : State) : string :=
  match d with
  | Output => currentOutputTranscriptionRef s
  | Input => currentInputTranscriptionRef s
  end.

Definition set_currentTranscription (d : Direction) (v : string) (s : State) : State :=
  match d with
  | Output => set_currentOutputTranscriptionRef v s
  | Input => set_currentInputTranscriptionRef v s
  end.

(** The text a message carries for a stream. *)
Definition transcription (d : Direction) (message : LiveServerMessage) : option string :=
  match d with
  | Output => outputTranscription message
  | Input => inputTranscription message
  end.

(** [Date.now()] and [new Date()] as read in the branch of a stream. *)
Definition nowOf (d : Direction) (env : MessageEnv) : Z :=
  match d with
  | Output => outputNow env
  | Input => inputNow env
  end.

Definition dateOf (d : Direction) (env : MessageEnv) : Z :=
  match d with
  | Output => outputDate env
  | Input => inputDate env
  end.

(** The state after a transcription branch that is taken with text [t]. *)
Definition received (d : Direction) (env : MessageEnv) (t : string) (s : State) : State :=
  let current := (currentTranscription d s ++ t)%string in
  set_messages (accumulate (roleOf d) current (nowOf d env) (dateOf d env))
    (set_currentTranscription d current s).

Definition afterTranscription (d : Direction) (env : MessageEnv)
    (message : LiveServerMessage) (s : State) : State :=
  match transcription d message with
  | Some t => if JS.truthyString t then received d env t s else s
  | None => s
  end.

(** The state [finalizeTranscript] leaves. *)
Definition finalizedState (s : State) : State :=
  set_currentOutputTranscriptionRef EmptyString
    (set_currentInputTranscriptionRef EmptyString
       (set_messages (map finalized) s)).

Definition afterTurnComplete (message : LiveServerMessage) (s : State) : State :=
  if JS.truthyFlag (turnComplete message) then finalizedState s else s.

(** The state the interruption branch leaves when it is taken. *)
Definition flushed (env : MessageEnv) (s : State) : State :=
  finalizedState
    (match outputAudioContextRef s with
     | Some ctx => set_nextStartTimeRef (currentTimeAtInterrupt env ctx)
                     (set_sourcesRef (fun _ => []) s)
     | None => set_sourcesRef (fun _ => []) s
     end).

Definition afterInterrupted (env : MessageEnv) (message : LiveServerMessage)
    (s : State) : State :=
  if JS.truthyFlag (interrupted message) then flushed env s else s.

Definition interruptOps (message : LiveServerMessage) (s : State) : list Op :=
  if JS.truthyFlag (interrupted message) then map SourceStop (sourcesRef s) else [].

(** The state in which the interruption branch of [onmessage] starts. *)
Definition beforeInterrupted (env : MessageEnv) (message : LiveServerMessage)
    (s : State) : State :=
  afterTurnComplete message
    (afterTranscription Input env message
       (afterTranscription Output env message
          (afterAudio env message s))).




(** *** Sample inputs *)

Definition neverThrows : AudioBufferSourceNode -> option JS.Exn := fun _ => None.

Definition alwaysThrows : AudioBufferSourceNode -> option JS.Exn :=
  fun _ => Some (JS.mkExn (Some "InvalidStateError"%string)).

Definition sampleProps : UseGeminiLiveProps :=
  {| systemInstruction := "You are the game master."; voiceName := "Zephyr" |}.

Definition sampleConnectEnv : ConnectEnv :=
  {| connectStopThrows := neverThrows;
     inputContext := inr 1;
     outputContext := inr 2;
     genAI := None |}.

(** A session that was opened: [connect], the microphone granted, the
    session promise obtained, [onopen]. *)
Definition sampleOpenEvents : list Event :=
  [Connect sampleConnectEnv;
   ConnectResume sampleProps (inr 3) (inr 4);
   OnOpen 5].

Definition sampleOpen : State := exec sampleOpenEvents initialState.

Definition permissionDenied : JS.Exn := JS.mkExn (Some "Permission denied"%string).

Definition sampleEnv : MessageEnv :=
  {| currentTime := fun _ => (1 # 2)%Q;
     bufferDuration := 1 # 4;
     bufferSource := 10;
     outputNow := 1700000000000;
     outputDate := 1700000000000;
     inputNow := 1700000000001;
     inputDate := 1700000000001;
     stopThrows := alwaysThrows;
     currentTimeAtInterrupt := fun _ => (3 # 4)%Q |}.

(** The five resource refs. *)
Definition refsOf (s : State) :=
  (inputAudioContextRef s, outputAudioContextRef s, mediaStreamRef s,
   scriptProcessorRef s, sessionPromiseRef s).

(** *** Playback *)

(** The tracked playback units and the timeline. *)
Definition playbackOf (s : State) := (sourcesRef s, nextStartTimeRef s).

(** The units started by a run of operations, with their start times. *)
Definition startsIn (ops : list Op) : list (AudioBufferSourceNode * Q) :=
  flat_map (fun o =>
              match o with
              | SourceStart src t => [(src, t)]
              | _ => []
              end) ops.

(** An event that neither schedules a unit, nor interrupts, nor tears the
    session down. *)
Definition quiet (ev : Event) : bool :=
  match ev with
  | Connect _ | Disconnect _ => false
  | OnMessage _ message =>
      negb (JS.truthyText (base64Audio message)) &&
      negb (JS.truthyFlag (interrupted message))
  | _ => true
  end.

(** *** Capture loudness, as the specification words it *)

(** The sum of the squared samples of a frame. *)
Fixpoint squares (frame : list R) : R :=
  match frame with
  | [] => 0%R
  | x :: tl => (x * x + squares tl)%R
  end.

(** Root-mean-square amplitude over the frame. *)
Definition rootMeanSquare (frame : list R) : R :=
  sqrt (squares frame / INR (List.length frame)).

(** The fixed gain factor. *)
Definition visualizerGain : R := 5%R.

(** Clamping to [0,1]. *)
Definition clampUnit (x : R) : R := Rmax 0 (Rmin 1 x).

(** *** Transcript accumulator *)

(** A message that carries one transcription fragment and nothing else. *)
Definition fragment (d : Direction) (t : string) : LiveServerMessage :=
  match d with
  | Output => mkLiveServerMessage None (Some t) None None None
  | Input => mkLiveServerMessage None None (Some t) None None
  end.

(** The events of a sequence of fragments of one stream, each with the
    environment it is handled in. *)
Definition fragments (d : Direction) (frags : list (MessageEnv * string)) : list Event :=
  map (fun f => OnMessage (fst f) (fragment d (snd f))) frags.

(** Concatenation in order. *)
Fixpoint joined (ts : list string) : string :=
  match ts with
  | [] => EmptyString
  | t :: tl => (t ++ joined tl)%string
  end.

(** The other stream. *)
Definition other (d : Direction) : Direction :=
  match d with
  | Output => Input
  | Input => Output
  end.

(** The text a message carries for a stream, empty when it carries none. *)
Definition textFor (d : Direction) (message : LiveServerMessage) : string :=
  match transcription d message with
  | Some t => t
  | None => EmptyString
  end.

(** The text of stream [d] that an event delivers. *)
Definition heard (d : Direction) (ev : Event) : string :=
  match ev with
  | OnMessage _ message => textFor d message
  | _ => EmptyString
  end.

(** An event that may lie between the fragments of stream [d]: it carries
    no text of the other stream, ends no turn, and is neither [connect] nor
    [disconnect].  It may carry a fragment of [d] itself, and audio. *)
Definition calm (d : Direction) (ev : Event) : bool :=
  match ev with
  | Connect _ | Disconnect _ => false
  | OnMessage _ message =>
      negb (JS.truthyString (textFor (other d) message)) &&
      negb (JS.truthyFlag (turnComplete message)) &&
      negb (JS.truthyFlag (interrupted message))
  | _ => true
  end.

(** An event that carries no transcription text at all, ends no turn and
    tears nothing down. *)
Definition silent (ev : Event) : bool :=
  calm Output ev && calm Input ev.

(** The transcript and both accumulation refs. *)
Definition transcriptOf (s : State) :=
  (messages s, currentInputTranscriptionRef s, currentOutputTranscriptionRef s).

(** A message is partial and of role [r]. *)
Definition partialOf (r : Role) (m : Message) : bool :=
  Role_eqb (role m) r && JS.truthyFlag (isPartial m).

Definition countPartial (r : Role) (ms : list Message) : nat :=
  List.length (filter (partialOf r) ms).

(** The transcript without the trailing message a fragment of role [r]
    would extend. *)
Definition standing (r : Role) (ms : list Message) : list Message :=
  match JS.lastOf ms with
  | Some last => if partialOf r last then JS.sliceInit ms else ms
  | None => ms
  end.


(** A fragment of stream [d] with text [t], handled in [s], starts a new
    message that holds [t] and keeps the messages of [s] before it. *)
Definition startsNewMessage (d : Direction) (env : MessageEnv) (t : string)
    (s : State) : Prop :=
  messages (final (onmessage env (fragment d t) s)) =
  messages s ++ [partialMessage (roleOf d) t (nowOf d env) (dateOf d env)].

(** What identifies a message in the transcript, whatever its text and its
    partial flag become. *)
Definition keyOf (m : Message) := (id m, role m, timestamp m).

(** A message flagged [turnComplete], and one flagged [interrupted]. *)
Definition turnCompleteMessage : LiveServerMessage :=
  mkLiveServerMessage None None None (Some true) None.

Definition interruptedMessage : LiveServerMessage :=
  mkLiveServerMessage None None None None (Some true).

(** A message that carries a playback unit and nothing else. *)
Definition audioMessage : LiveServerMessage :=
  mkLiveServerMessage (Some "UklGRg=="%string) None None None None.

(** The environment of a second unit, which arrives before the first one
    has finished playing. *)
Definition sampleEnvB : MessageEnv :=
  {| currentTime := fun _ => (5 # 8)%Q;
     bufferDuration := 1 # 4;
     bufferSource := 11;
     outputNow := 1700000000500;
     outputDate := 1700000000500;
     inputNow := 1700000000501;
     inputDate := 1700000000501;
     stopThrows := alwaysThrows;
     currentTimeAtInterrupt := fun _ => (7 # 8)%Q |}.

(** Events between the two units: a transcription fragment, a completed
    turn, the end of the first unit's playback. *)
Definition sampleBetween : list Event :=
  [OnMessage sampleEnv (fragment Output "Hi");
   OnMessage sampleEnv turnCompleteMessage;
   OnEnded 10].

(** A captured frame. *)
Definition sampleFrame : list R := [(1 / 2)%R; (- 1 / 2)%R; 0%R; (1 / 4)%R].

(* ===================================================================== *)
(** ** Vocabulary of further properties                                   *)
(* ===================================================================== *)

(** *** Transcript *)

(** What may become of a message that stays in the transcript: it keeps its
    identity, and once it is not partial its text and its flag are settled. *)
Definition keeps (m m' : Message) : Prop :=
  keyOf m' = keyOf m /\
  (JS.truthyFlag (isPartial m) = false ->
   text m' = text m /\ JS.truthyFlag (isPartial m') = false).

(** The transcript [ms'] continues [ms]: every message of [ms] is kept, at
    its position, and further messages may follow. *)
Definition continues (ms ms' : list Message) : Prop :=
  exists kept extra, ms' = kept ++ extra /\ Forall2 keeps ms kept.

(** Two neighbours are partial messages of one role. *)
Definition clash (a b : Message) : bool :=
  Role_eqb (role a) (role b) &&
  JS.truthyFlag (isPartial a) && JS.truthyFlag (isPartial b).

Fixpoint hasClash (ms : list Message) : bool :=
  match ms with
  | a :: tl =>
      match tl with
      | b :: _ => clash a b || hasClash tl
      | [] => false
      end
  | [] => false
  end.

(** The roles the transcription branches give to a message. *)
Definition spoken (m : Message) : bool :=
  match role m with
  | user | model => true
  | system => false
  end.

(** *** Playback *)

Definition isMessage (ev : Event) : bool :=
  match ev with
  | OnMessage _ _ => true
  | _ => false
  end.

(** An event that is no interruption and whose decoded buffer, if any, has
    a duration that is not negative. *)
Definition steady (ev : Event) : bool :=
  match ev with
  | OnMessage env message =>
      negb (JS.truthyFlag (interrupted message)) &&
      Qle_bool 0 (bufferDuration env)
  | _ => true
  end.

(** *** Session lifecycle *)

Definition isConnectCall (ev : Event) : bool :=
  match ev with
  | Connect _ => true
  | _ => false
  end.

Definition isOpen (ev : Event) : bool :=
  match ev with
  | OnOpen _ => true
  | _ => false
  end.

(** The acquisitions of the synchronous part of [connect], in order. *)
Definition acquisitions : list Op :=
  [NewAudioContext 16000; NewAudioContext 24000; NewGoogleGenAI; GetUserMedia].

(** The state in which a [connect] whose synchronous part succeeded waits
    for the microphone. *)
Definition waitingForMicrophone (cin cout : AudioContext) (s : State) : State :=
  set_outputAudioContextRef (Some cout)
    (set_inputAudioContextRef (Some cin)
       (set_error None (tornDown s))).

(** An audio callback delivers a frame that is not empty. *)
Definition framed (ev : Event) : bool :=
  match ev with
  | OnAudioProcess inputData =>
      match inputData with
      | [] => false
      | _ :: _ => true
      end
  | _ => true
  end.

(** *** The component *)

(** The hook events a step of the component amounts to. *)
Definition hookEvents (ev : AppEvent) (a : AppState) : list Event :=
  match ev with
  | ClickUniverse env _ => [Connect env]
  | ClickExit stopThrows => [Disconnect stopThrows]
  | ClickRestart stopThrows =>
      match activeUniverse a with
      | Some _ => [Disconnect stopThrows]
      | None => []
      end
  | TimerFires env =>
      match timers a with
      | _ :: _ => [Connect env]
      | [] => []
      end
  | MicrophoneSettles settled live =>
      match suspended a with
      | props :: _ => [ConnectResume props settled live]
      | [] => []
      end
  | Callback ev => [ev]
  end.

(** The hook events of a run of the component. *)
Fixpoint hookTrace (evs : list AppEvent) (a : AppState) : list Event :=
  match evs with
  | [] => []
  | ev :: tl => hookEvents ev a ++ hookTrace tl (fst (appStep ev a))
  end.

(** A step of the component that is not the delivery of a message. *)
Definition noMessage (ev : AppEvent) : bool :=
  match ev with
  | Callback (OnMessage _ _) => false
  | _ => true
  end.

(** A step of the component that is no audio callback with an empty frame. *)
Definition framedStep (ev : AppEvent) : bool :=
  match ev with
  | Callback ev => framed ev
  | _ => true
  end.

(** A scenario to try the component on. *)
Definition sampleUniverse : Universe.UniverseConfig :=
  {| Universe.id := Universe.scifi;
     Universe.title := "Station X-9";
     Universe.description := "A survival horror scenario.";
     Universe.icon := "rocket";
     Universe.initialPrompt := "You are the Game Master on Station X-9.";
     Universe.color := "bg-slate-900";
     Universe.voiceName := Universe.Fenrir |}.

(** The component with an open game of [sampleUniverse]. *)
Definition samplePlaying : AppState :=
  appRun [ClickUniverse sampleConnectEnv sampleUniverse;
          MicrophoneSettles (inr 3) (inr 4);
          Callback (OnOpen 5)] initialApp.

(** *** Within a turn *)

(** An event that ends no turn and is neither [connect] nor [disconnect];
    it may carry text of either stream. *)
Definition inTurn (ev : Event) : bool :=
  match ev with
  | Connect _ | Disconnect _ => false
  | OnMessage _ message =>
      negb (JS.truthyFlag (turnComplete message)) &&
      negb (JS.truthyFlag (interrupted message))
  | _ => true
  end.

(** The transcript shows [acc] as the text of stream [d]: nothing when
    [acc] is empty; otherwise the newest message of the role of [d] is
    partial and its text is [acc]. *)
Definition shows (d : Direction) (acc : string) (ms : list Message) : Prop :=
  acc = EmptyString \/
  exists pre m post,
    ms = pre ++ m :: post /\
    role m = roleOf d /\
    isPartial m = Some true /\
    text m = acc /\
    Forall (fun x => role x <> roleOf d) post.

(** The promise whose session [disconnect] will ask to close. *)
Definition heldSession (s : State) : list SessionPromise :=
  match sessionPromiseRef s with
  | Some p => [p]
  | None => []
  end.

(** The hook after [connect] and the grant of the microphone, when
    [ai.live.connect] has returned the promise [p]. *)
Definition sessionRequested (env : ConnectEnv) (props : UseGeminiLiveProps)
    (stream : MediaStream) (p : SessionPromise) (w : World) : World :=
  fst (worldRun [Hook (Connect env);
                 Hook (ConnectResume props (inr stream) (inr p))] w).

(** An opened session whose promise is fulfilled. *)
Definition sampleWorld : World :=
  fst (worldRun (map Hook sampleOpenEvents ++ [Settles 4 Fulfilled]) initialWorld).

Definition connectionRefused : JS.Exn := JS.mkExn (Some "Connection refused"%string).
(* ===================================================================== *)
(** ** Running a handler symbolically                                      *)
(* ===================================================================== *)

Lemma outcome_eq {A : Type} (o : Outcome A) :
  o = mkOutcome (final o) (trace o) (result o).
Proof. destruct o; reflexivity. Qed.

(** A computation that returned runs its continuation. *)
Lemma bind_inr {A B : Type} (c : M A) (k : A -> M B) s s1 t1 a :
  c s = mkOutcome s1 t1 (inr a) ->
  bind c k s =
  mkOutcome (final (k a s1)) (t1 ++ trace (k a s1)) (result (k a s1)).
Proof. intros H. unfold bind. rewrite H. destruct (k a s1); reflexivity. Qed.

(** A computation that threw skips its continuation. *)
Lemma bind_inl {A B : Type} (c : M A) (k : A -> M B) s s1 t1 e :
  c s = mkOutcome s1 t1 (inl e) ->
  bind c k s = mkOutcome s1 t1 (inl e).
Proof. intros H. unfold bind. rewrite H. reflexivity. Qed.

Lemma stopQuietly_run stopThrows source s :
  stopQuietly stopThrows source s = mkOutcome s [SourceStop source] (inr tt).
Proof.
  unfold stopQuietly, tryCatch, call, bind, perform, throw, ret.
  destruct (stopThrows source); reflexivity.
Qed.

Lemma forOf_stop_run stopThrows l s :
  forOf l (stopQuietly stopThrows) s = mkOutcome s (map SourceStop l) (inr tt).
Proof.
  induction l as [|x l IH]; cbn [forOf map].
  - reflexivity.
  - erewrite bind_inr by apply stopQuietly_run. rewrite IH. reflexivity.
Qed.

(** Stopping all sources never throws, stops each tracked source once, in
    insertion order, and leaves the set empty. *)
Lemma stopAllSources_run stopThrows s :
  stopAllSources stopThrows s =
  mkOutcome (set_sourcesRef (fun _ => []) s) (map SourceStop (sourcesRef s)) (inr tt).
Proof.
  unfold stopAllSources.
  erewrite bind_inr by reflexivity.
  erewrite bind_inr by apply forOf_stop_run.
  cbn. rewrite app_nil_r. reflexivity.
Qed.

Lemma disconnect_run stopThrows s :
  disconnect stopThrows s = mkOutcome (tornDown s) (teardownOps s) (inr tt).
Proof.
  unfold disconnect, teardownOps, tornDown.
  destruct s as [ic ms v er [cin|] [cout|] [st|] [sp|] [p|] nst srcs bin bout];
    unfold whenSet, bind, get, modify, perform, ret; simpl;
    rewrite stopAllSources_run; simpl;
    rewrite ?app_nil_r; reflexivity.
Qed.

Lemma tornDown_idem s : tornDown (tornDown s) = tornDown s.
Proof. reflexivity. Qed.

Lemma teardownOps_tornDown s : teardownOps (tornDown s) = [].
Proof. reflexivity. Qed.

Lemma allReleased_tornDown s : allReleased (tornDown s).
Proof. repeat split. Qed.

Lemma teardownOps_released s : allReleased s -> teardownOps s = [].
Proof.
  intros (H1 & H2 & H3 & H4 & H5 & H6). unfold teardownOps.
  rewrite H1, H2, H3, H4, H5, H6. reflexivity.
Qed.

Lemma orElse_truthy m d :
  JS.truthyString d = true -> JS.truthyString (JS.orElse m d) = true.
Proof.
  intros Hd. unfold JS.orElse. destruct m as [t|]; [|exact Hd].
  destruct (JS.truthyString t) eqn:Ht; [exact Ht | exact Hd].
Qed.

Lemma connect_failure_run env s err :
  connectFailure env = Some err ->
  exists s1 attempts,
    connect env s =
    mkOutcome
      (set_isConnected false
         (set_error (Some (JS.orElse (JS.message err) "Failed to connect")) s1))
      (teardownOps s ++ attempts) (inr false) /\
    (attempts = [NewAudioContext 16000] \/
     attempts = [NewAudioContext 16000; NewAudioContext 24000] \/
     attempts = [NewAudioContext 16000; NewAudioContext 24000; NewGoogleGenAI]).
Proof.
  unfold connectFailure. intros H.
  unfold connect. erewrite bind_inr by apply disconnect_run.
  destruct (inputContext env) as [e1|cin].
  - injection H as <-. eexists _, [NewAudioContext 16000].
    split; [reflexivity | tauto].
  - destruct (outputContext env) as [e2|cout].
    + injection H as <-.
      eexists _, [NewAudioContext 16000; NewAudioContext 24000].
      split; [reflexivity | tauto].
    + rewrite H.
      eexists _, [NewAudioContext 16000; NewAudioContext 24000; NewGoogleGenAI].
      split; [reflexivity | tauto].
Qed.

Lemma connect_resume_failure_run props settled live s err :
  resumeFailure settled live = Some err ->
  exists s1 attempts,
    connect_resume props settled live s =
    mkOutcome
      (set_isConnected false
         (set_error (Some (JS.orElse (JS.message err) "Failed to connect")) s1))
      attempts (inr tt) /\
    (attempts = [] \/
     attempts = [LiveConnect (voiceName props) (systemInstruction props)]).
Proof.
  unfold resumeFailure. intros H.
  destruct settled as [e1|stream].
  - injection H as <-. exists s, []. split; [reflexivity | tauto].
  - destruct live as [e2|p]; [|discriminate].
    injection H as <-.
    exists (set_mediaStreamRef (Some stream) s),
      [LiveConnect (voiceName props) (systemInstruction props)].
    split; [reflexivity | tauto].
Qed.

(* ===================================================================== *)
(** ** [onmessage], branch by branch                                       *)
(* ===================================================================== *)

Lemma handleAudio_run env message s :
  handleAudio env message s =
  mkOutcome (afterAudio env message s) (audioOps env message s) (inr tt).
Proof.
  unfold handleAudio, afterAudio, audioOps, audible.
  erewrite bind_inr by reflexivity. cbn [final trace result app].
  destruct (base64Audio message) as [data|];
    [|destruct (outputAudioContextRef s); reflexivity].
  destruct (outputAudioContextRef s) as [ctx|] eqn:Hctx; [|reflexivity].
  destruct (JS.truthyString data); [|reflexivity].
  destruct s; reflexivity.
Qed.

Lemma handleOutputTranscription_run env message s :
  handleOutputTranscription env message s =
  mkOutcome (afterTranscription Output env message s) [] (inr tt).
Proof.
  unfold handleOutputTranscription, afterTranscription. simpl.
  destruct (outputTranscription message) as [t|]; [|reflexivity].
  destruct (JS.truthyString t); [|reflexivity].
  destruct s; reflexivity.
Qed.

Lemma handleInputTranscription_run env message s :
  handleInputTranscription env message s =
  mkOutcome (afterTranscription Input env message s) [] (inr tt).
Proof.
  unfold handleInputTranscription, afterTranscription. simpl.
  destruct (inputTranscription message) as [t|]; [|reflexivity].
  destruct (JS.truthyString t); [|reflexivity].
  destruct s; reflexivity.
Qed.

Lemma finalizeTranscript_run s :
  finalizeTranscript s = mkOutcome (finalizedState s) [] (inr tt).
Proof. destruct s; reflexivity. Qed.

Lemma handleTurnComplete_run message s :
  handleTurnComplete message s =
  mkOutcome (afterTurnComplete message s) [] (inr tt).
Proof.
  unfold handleTurnComplete, afterTurnComplete.
  destruct (JS.truthyFlag (turnComplete message)); [|reflexivity].
  apply finalizeTranscript_run.
Qed.

Lemma handleInterrupted_run env message s :
  handleInterrupted env message s =
  mkOutcome (afterInterrupted env message s) (interruptOps message s) (inr tt).
Proof.
  unfold handleInterrupted, afterInterrupted, interruptOps, flushed.
  destruct (JS.truthyFlag (interrupted message)); [|reflexivity].
  erewrite bind_inr by apply stopAllSources_run.
  destruct s as [ic ms v er cin [cout|] st sp p nst srcs bin bout];
    cbn; rewrite ?app_nil_r; reflexivity.
Qed.

(** One call of [onmessage]: it never throws; its operations are those of
    the audio branch followed by those of the interruption branch. *)
Lemma onmessage_run env message s :
  onmessage env message s =
  mkOutcome
    (afterInterrupted env message (beforeInterrupted env message s))
    (audioOps env message s ++
     interruptOps message (beforeInterrupted env message s))
    (inr tt).
Proof.
  unfold onmessage, beforeInterrupted.
  erewrite bind_inr by apply handleAudio_run.
  erewrite bind_inr by apply handleOutputTranscription_run.
  erewrite bind_inr by apply handleInputTranscription_run.
  erewrite bind_inr by apply handleTurnComplete_run.
  rewrite handleInterrupted_run. reflexivity.
Qed.

(* ===================================================================== *)
(** ** Session lifecycle                                                   *)
(* ===================================================================== *)

(** C6.  [disconnect] never throws, whatever the state and whichever
    [source.stop()] calls the platform makes throw; a second [disconnect] in
    a row finds every resource reference null and the tracked set empty,
    performs no operation at all and leaves the state as it is; the same
    holds for a [disconnect] in the initial state, before any [connect]. *)
Theorem disconnect_idempotent_never_throws :
  (forall stopThrows s, result (disconnect stopThrows s) = inr tt) /\
  (forall stopThrows stopThrows' s,
     let s1 := final (disconnect stopThrows s) in
     allReleased s1 /\
     disconnect stopThrows' s1 = mkOutcome s1 [] (inr tt)) /\
  (forall stopThrows,
     allReleased initialState /\
     disconnect stopThrows initialState = mkOutcome initialState [] (inr tt)).
Proof.
  split; [|split].
  - intros st s. rewrite disconnect_run. reflexivity.
  - intros st st' s. cbv zeta. rewrite !disconnect_run. cbn [final].
    split; [apply allReleased_tornDown | reflexivity].
  - intros st. rewrite disconnect_run.
    split; [repeat split | reflexivity].
Qed.

(** C10.  [disconnect] leaves the transcript as it is, message for message;
    it also keeps the error text and the playback timeline.  It resets the
    connection flag, the loudness, both accumulation refs, the five resource
    refs and the tracked set. *)
Theorem disconnect_keeps_transcript :
  forall stopThrows s,
    let s' := final (disconnect stopThrows s) in
    messages s' = messages s /\
    error s' = error s /\
    nextStartTimeRef s' = nextStartTimeRef s /\
    isConnected s' = false /\
    volume s' = 0%R /\
    currentInputTranscriptionRef s' = EmptyString /\
    currentOutputTranscriptionRef s' = EmptyString /\
    allReleased s'.
Proof.
  intros st s. cbv zeta. rewrite disconnect_run. cbn [final].
  repeat split.
Qed.

Lemma connect_run_trace env s :
  exists attempts,
    trace (connect env s) = teardownOps s ++ attempts /\
    (attempts = [NewAudioContext 16000] \/
     attempts = [NewAudioContext 16000; NewAudioContext 24000] \/
     attempts = [NewAudioContext 16000; NewAudioContext 24000; NewGoogleGenAI] \/
     attempts = [NewAudioContext 16000; NewAudioContext 24000; NewGoogleGenAI;
                 GetUserMedia]).
Proof.
  unfold connect. erewrite bind_inr by apply disconnect_run.
  destruct (inputContext env) as [e1|cin].
  - exists [NewAudioContext 16000]. split; [reflexivity | tauto].
  - destruct (outputContext env) as [e2|cout].
    + exists [NewAudioContext 16000; NewAudioContext 24000].
      split; [reflexivity | tauto].
    + destruct (genAI env) as [e3|].
      * exists [NewAudioContext 16000; NewAudioContext 24000; NewGoogleGenAI].
        split; [reflexivity | tauto].
      * exists [NewAudioContext 16000; NewAudioContext 24000; NewGoogleGenAI;
                GetUserMedia].
        split; [reflexivity | tauto].
Qed.

Lemma teardownOps_no_acquire s : filter isAcquire (teardownOps s) = [].
Proof.
  unfold teardownOps.
  rewrite !filter_app.
  destruct (inputAudioContextRef s), (outputAudioContextRef s),
    (mediaStreamRef s), (scriptProcessorRef s), (sessionPromiseRef s);
    cbn; rewrite ?app_nil_r;
    induction (sourcesRef s); cbn; auto.
Qed.

Lemma handle_connect_run env s :
  handle (Connect env) s =
  mkOutcome (final (connect env s)) (trace (connect env s))
    (match result (connect env s) with
     | inl e => inl e
     | inr _ => inr tt
     end).
Proof.
  cbn [handle]. unfold bind at 1.
  destruct (connect env s) as [s1 t1 [e|b]]; cbn; rewrite ?app_nil_r; reflexivity.
Qed.

(** X23.  Whenever a step of session acquisition throws inside the [try]
    block of [connect] (a constructor, the rejected [getUserMedia] promise,
    the call [ai.live.connect]) and whenever the remote session reports an
    error to [onerror], the hook holds exactly one error text,
    which is not empty: the [message] of the failure, or a fixed text when
    there is none; the connection flag is false; no acquisition operation is
    performed twice, [getUserMedia] is not called after a failed
    constructor, and [onerror] performs no operation at all. *)
Theorem failure_surfaces_one_error :
  forall ev s err,
    failureOf ev = Some err ->
    let o := handle ev s in
    let shown := JS.orElse (JS.message err) (fallbackText ev) in
    error (final o) = Some shown /\
    JS.truthyString shown = true /\
    isConnected (final o) = false /\
    NoDup (filter isAcquire (trace o)) /\
    ~ In GetUserMedia (trace o) /\
    (isRemoteEnd ev = true -> trace o = []).
Proof.
  intros ev s err H. cbv zeta.
  split; [|split; [apply orElse_truthy; destruct ev; reflexivity|]].
  - destruct ev; try discriminate; cbn [failureOf fallbackText] in *.
    + rewrite handle_connect_run.
      destruct (connect_failure_run env s H) as (s1 & att & -> & _). reflexivity.
    + cbn [handle].
      destruct (connect_resume_failure_run props settled live s H)
        as (s1 & att & -> & _). reflexivity.
    + injection H as <-. reflexivity.
  - destruct ev; try discriminate; cbn [failureOf fallbackText isRemoteEnd] in *.
    + rewrite handle_connect_run.
      destruct (connect_failure_run env s H) as (s1 & att & -> & Hatt).
      cbn [final trace]. rewrite filter_app, teardownOps_no_acquire. cbn [app].
      split; [reflexivity|]. split; [|split; [|discriminate]].
      * destruct Hatt as [-> | [-> | ->]]; cbn;
          repeat constructor; cbn; intuition discriminate.
      * intros Hin. apply in_app_or in Hin. destruct Hin as [Hin|Hin].
        -- assert (Hf : In GetUserMedia (filter isAcquire (teardownOps s)))
             by (apply filter_In; split; [exact Hin | reflexivity]).
           rewrite teardownOps_no_acquire in Hf. exact Hf.
        -- destruct Hatt as [-> | [-> | ->]]; cbn in Hin; intuition discriminate.
    + cbn [handle].
      destruct (connect_resume_failure_run props settled live s H)
        as (s1 & att & -> & Hatt).
      cbn [final trace]. split; [reflexivity|].
      split; [|split; [|discriminate]].
      * destruct Hatt as [-> | ->]; cbn; repeat constructor. intros [].
      * destruct Hatt as [-> | ->]; cbn; intuition discriminate.
    + injection H as <-. cbn.
      split; [reflexivity|]. split; [constructor|]. split; [tauto | reflexivity].
Qed.

(** *** Which handlers touch the resource refs *)


Lemma afterAudio_refs env message s :
  refsOf (afterAudio env message s) = refsOf s.
Proof.
  unfold afterAudio.
  destruct (outputAudioContextRef s) eqn:E; [|reflexivity].
  destruct (audible message s); [|reflexivity].
  unfold refsOf. cbn. rewrite E. reflexivity.
Qed.

Lemma afterTranscription_refs d env message s :
  refsOf (afterTranscription d env message s) = refsOf s.
Proof.
  unfold afterTranscription.
  destruct (transcription d message) as [t|]; [|reflexivity].
  destruct (JS.truthyString t); [|reflexivity].
  destruct d; reflexivity.
Qed.

Lemma afterTurnComplete_refs message s :
  refsOf (afterTurnComplete message s) = refsOf s.
Proof.
  unfold afterTurnComplete.
  destruct (JS.truthyFlag (turnComplete message)); reflexivity.
Qed.

Lemma afterInterrupted_refs env message s :
  refsOf (afterInterrupted env message s) = refsOf s.
Proof.
  unfold afterInterrupted, flushed.
  destruct (JS.truthyFlag (interrupted message)); [|reflexivity].
  unfold refsOf. cbn. destruct (outputAudioContextRef s) eqn:E; cbn; rewrite ?E; reflexivity.
Qed.

Lemma onmessage_refs env message s :
  refsOf (final (onmessage env message s)) = refsOf s.
Proof.
  rewrite onmessage_run. cbn [final]. unfold beforeInterrupted.
  rewrite afterInterrupted_refs, afterTurnComplete_refs,
    !afterTranscription_refs, afterAudio_refs.
  reflexivity.
Qed.



(* ===================================================================== *)
(** ** Playback pipeline                                                   *)
(* ===================================================================== *)

Lemma afterTranscription_playback d env message s :
  playbackOf (afterTranscription d env message s) = playbackOf s.
Proof.
  unfold afterTranscription.
  destruct (transcription d message) as [t|]; [|reflexivity].
  destruct (JS.truthyString t); [|reflexivity].
  destruct d; reflexivity.
Qed.

Lemma afterTurnComplete_playback message s :
  playbackOf (afterTurnComplete message s) = playbackOf s.
Proof.
  unfold afterTurnComplete.
  destruct (JS.truthyFlag (turnComplete message)); reflexivity.
Qed.

Lemma beforeInterrupted_playback env message s :
  playbackOf (beforeInterrupted env message s) =
  playbackOf (afterAudio env message s).
Proof.
  unfold beforeInterrupted.
  rewrite afterTurnComplete_playback, !afterTranscription_playback.
  reflexivity.
Qed.

Lemma beforeInterrupted_refs env message s :
  refsOf (beforeInterrupted env message s) = refsOf s.
Proof.
  unfold beforeInterrupted.
  rewrite afterTurnComplete_refs, !afterTranscription_refs, afterAudio_refs.
  reflexivity.
Qed.

Lemma audible_truthy message s :
  audible message s = true -> JS.truthyText (base64Audio message) = true.
Proof.
  unfold audible, JS.truthyText.
  destruct (base64Audio message); [|discriminate].
  destruct (outputAudioContextRef s); [tauto | discriminate].
Qed.

Lemma afterAudio_silent env message s :
  JS.truthyText (base64Audio message) = false -> afterAudio env message s = s.
Proof.
  intros H. unfold afterAudio.
  destruct (outputAudioContextRef s); [|reflexivity].
  destruct (audible message s) eqn:E; [|reflexivity].
  apply audible_truthy in E. congruence.
Qed.

Lemma startsIn_app a b : startsIn (a ++ b) = startsIn a ++ startsIn b.
Proof. apply flat_map_app. Qed.

Lemma startsIn_stops l : startsIn (map SourceStop l) = [].
Proof. induction l; cbn; auto. Qed.

Lemma audible_iff message s ctx :
  outputAudioContextRef s = Some ctx ->
  audible message s = JS.truthyText (base64Audio message).
Proof.
  intros H. unfold audible, JS.truthyText. rewrite H.
  destruct (base64Audio message); reflexivity.
Qed.

Lemma startsIn_onmessage env message s ctx :
  outputAudioContextRef s = Some ctx ->
  JS.truthyText (base64Audio message) = true ->
  startsIn (trace (onmessage env message s)) =
  [(bufferSource env, startTime env ctx s)].
Proof.
  intros Hctx H. rewrite onmessage_run. cbn [trace].
  rewrite startsIn_app. unfold interruptOps.
  assert (Hi : startsIn (if JS.truthyFlag (interrupted message)
                         then map SourceStop
                                (sourcesRef (beforeInterrupted env message s))
                         else []) = []).
  { destruct (JS.truthyFlag (interrupted message));
      [apply startsIn_stops | reflexivity]. }
  rewrite Hi, app_nil_r.
  unfold audioOps. rewrite Hctx. unfold JS.truthyText in H.
  destruct (base64Audio message) as [data|]; [|discriminate].
  rewrite H. reflexivity.
Qed.

Lemma afterAudio_advances env message s ctx :
  outputAudioContextRef s = Some ctx ->
  JS.truthyText (base64Audio message) = true ->
  nextStartTimeRef (afterAudio env message s) =
  (startTime env ctx s + bufferDuration env)%Q.
Proof.
  intros Hctx H. unfold afterAudio.
  rewrite (audible_iff message s Hctx), Hctx, H. reflexivity.
Qed.

(** The timeline after a message that carries a unit and no interruption. *)
Lemma onmessage_advances env message s ctx :
  outputAudioContextRef s = Some ctx ->
  JS.truthyText (base64Audio message) = true ->
  JS.truthyFlag (interrupted message) = false ->
  nextStartTimeRef (final (onmessage env message s)) =
  (startTime env ctx s + bufferDuration env)%Q /\
  outputAudioContextRef (final (onmessage env message s)) = Some ctx.
Proof.
  intros Hctx Ha Hi. split.
  - rewrite onmessage_run. cbn [final]. unfold afterInterrupted. rewrite Hi.
    pose proof (beforeInterrupted_playback env message s) as Hp.
    unfold playbackOf in Hp. injection Hp as _ ->.
    apply afterAudio_advances; assumption.
  - pose proof (onmessage_refs env message s) as Hr.
    unfold refsOf in Hr. injection Hr as _ Hr _ _ _. congruence.
Qed.

(** A quiet event keeps the timeline and the output context. *)
Lemma quiet_keeps_timeline ev s :
  quiet ev = true ->
  nextStartTimeRef (final (handle ev s)) = nextStartTimeRef s /\
  outputAudioContextRef (final (handle ev s)) = outputAudioContextRef s.
Proof.
  intros H. destruct ev; try discriminate; cbn [handle].
  - destruct settled as [e1|stream]; [|destruct live as [e2|p]]; split; reflexivity.
  - unfold onopen. erewrite bind_inr by reflexivity.
    erewrite bind_inr by reflexivity. cbn [final].
    destruct (inputAudioContextRef _) as [c|];
      [destruct (mediaStreamRef _) as [m|]|]; split; reflexivity.
  - split; reflexivity.
  - cbn [quiet] in H. apply andb_prop in H. destruct H as [Ha Hi].
    apply negb_true_iff in Ha. apply negb_true_iff in Hi.
    split.
    + rewrite onmessage_run. cbn [final]. unfold afterInterrupted. rewrite Hi.
      pose proof (beforeInterrupted_playback env message s) as Hp.
      unfold playbackOf in Hp. injection Hp as _ ->.
      rewrite afterAudio_silent by exact Ha. reflexivity.
    + pose proof (onmessage_refs env message s) as Hr.
      unfold refsOf in Hr. injection Hr as _ Hr _ _ _. exact Hr.
  - split; reflexivity.
  - split; reflexivity.
  - split; reflexivity.
Qed.

Lemma exec_quiet_keeps_timeline es s :
  forallb quiet es = true ->
  nextStartTimeRef (exec es s) = nextStartTimeRef s /\
  outputAudioContextRef (exec es s) = outputAudioContextRef s.
Proof.
  revert s. induction es as [|ev es IH]; intros s H; cbn in *.
  - split; reflexivity.
  - apply andb_prop in H. destruct H as [Hev Hes].
    destruct (IH (final (handle ev s)) Hes) as [-> ->].
    apply quiet_keeps_timeline, Hev.
Qed.

(** C4.  With an output context [ctx], a message that carries a unit
    starts it at [max(nextStartTime, ctx.currentTime)] and then advances
    [nextStartTime] by the unit's duration.  Hence, for a unit A and the
    next unit B, with any events in between that neither schedule, interrupt
    nor tear down, B starts no earlier than A's start plus A's duration. *)
Theorem playback_units_never_overlap :
  forall s ctx envA messageA between envB messageB,
    outputAudioContextRef s = Some ctx ->
    JS.truthyText (base64Audio messageA) = true ->
    JS.truthyFlag (interrupted messageA) = false ->
    forallb quiet between = true ->
    JS.truthyText (base64Audio messageB) = true ->
    let sA := final (onmessage envA messageA s) in
    let sB := exec between sA in
    let startA := Qmax (nextStartTimeRef s) (currentTime envA ctx) in
    let startB := Qmax (nextStartTimeRef sB) (currentTime envB ctx) in
    startsIn (trace (onmessage envA messageA s)) = [(bufferSource envA, startA)] /\
    nextStartTimeRef sA = (startA + bufferDuration envA)%Q /\
    startsIn (trace (onmessage envB messageB sB)) = [(bufferSource envB, startB)] /\
    nextStartTimeRef (afterAudio envB messageB sB) =
      (startB + bufferDuration envB)%Q /\
    (startA + bufferDuration envA <= startB)%Q.
Proof.
  intros s ctx envA mA between envB mB Hctx HA HiA Hq HB sA sB startA startB.
  destruct (onmessage_advances envA mA s Hctx HA HiA) as [HnA HcA].
  destruct (exec_quiet_keeps_timeline between sA Hq) as [Hn Hc].
  fold sB in Hn, Hc. fold sA in HnA, HcA. rewrite HcA in Hc.
  split; [apply (startsIn_onmessage envA mA s Hctx HA)|].
  split; [exact HnA|].
  split; [apply (startsIn_onmessage envB mB sB Hc HB)|].
  split; [apply (afterAudio_advances envB mB sB Hc HB)|].
  unfold startB. rewrite Hn, HnA. apply Q.le_max_l.
Qed.

Lemma setAdd_incl x l : incl l (setAdd x l).
Proof.
  unfold setAdd. destruct (existsb (Nat.eqb x) l).
  - apply incl_refl.
  - apply incl_appl, incl_refl.
Qed.

Lemma filter_stops_audioOps env message s :
  filter isSourceStop (audioOps env message s) = [].
Proof.
  unfold audioOps. destruct (base64Audio message) as [data|]; [|reflexivity].
  destruct (outputAudioContextRef s); [|reflexivity].
  destruct (JS.truthyString data); reflexivity.
Qed.

Lemma filter_stops_map l : filter isSourceStop (map SourceStop l) = map SourceStop l.
Proof. induction l; cbn; congruence. Qed.

(** C5.  A message flagged [interrupted] calls [stop()] on every unit that
    is in the tracked set when its interruption branch runs: the units
    tracked when the message arrived and the unit the message itself may
    have scheduled; it stops nothing else, swallows what [stop()] throws, and
    leaves the tracked set empty.  When there is an output audio context,
    [nextStartTime] becomes the current time of that context. *)
Theorem interruption_flushes_playback :
  forall env message s,
    JS.truthyFlag (interrupted message) = true ->
    let o := onmessage env message s in
    let tracked := sourcesRef (afterAudio env message s) in
    result o = inr tt /\
    incl (sourcesRef s) tracked /\
    filter isSourceStop (trace o) = map SourceStop tracked /\
    sourcesRef (final o) = [] /\
    (forall ctx, outputAudioContextRef s = Some ctx ->
       nextStartTimeRef (final o) = currentTimeAtInterrupt env ctx).
Proof.
  intros env message s Hi. cbv zeta. rewrite onmessage_run.
  cbn [final trace result].
  pose proof (beforeInterrupted_playback env message s) as Hp.
  unfold playbackOf in Hp. injection Hp as Hsrc _.
  pose proof (beforeInterrupted_refs env message s) as Hr.
  unfold refsOf in Hr. injection Hr as _ Hout _ _ _.
  split; [reflexivity|]. split; [|split; [|split]].
  - unfold afterAudio. destruct (outputAudioContextRef s); [|apply incl_refl].
    destruct (audible message s); [|apply incl_refl].
    cbn. apply setAdd_incl.
  - rewrite filter_app, filter_stops_audioOps. unfold interruptOps.
    rewrite Hi, Hsrc. apply filter_stops_map.
  - unfold afterInterrupted, flushed. rewrite Hi.
    destruct (outputAudioContextRef _); reflexivity.
  - intros ctx Hctx. unfold afterInterrupted, flushed. rewrite Hi, Hout, Hctx.
    reflexivity.
Qed.

(* ===================================================================== *)
(** ** Capture pipeline                                                    *)
(* ===================================================================== *)

Lemma fold_squares frame acc :
  fold_left (fun sum x => (sum + x * x)%R) frame acc = (acc + squares frame)%R.
Proof.
  revert acc. induction frame as [|x tl IH]; intros acc; cbn.
  - lra.
  - rewrite IH. lra.
Qed.

Lemma sumOfSquares_squares frame : sumOfSquares frame = squares frame.
Proof. unfold sumOfSquares. rewrite fold_squares. lra. Qed.

Lemma loudness_bounds frame : (0 <= loudness frame <= 1)%R.
Proof.
  unfold loudness. split.
  - apply Rmin_glb; [lra|].
    apply Rmult_le_pos; [apply sqrt_pos | lra].
  - apply Rmin_l.
Qed.

(** C8.  For a captured frame, the loudness stored for the visualizer is
    the root-mean-square amplitude of the frame's samples times the gain 5,
    clamped to the unit interval; it lies between 0 and 1.  A frame of a
    script processor is never empty (its size is 4096); for an empty array
    JavaScript would divide 0 by 0. *)
Theorem loudness_is_clamped_rms :
  forall inputData s,
    inputData <> [] ->
    let v := volume (final (onaudioprocess inputData s)) in
    v = clampUnit (rootMeanSquare inputData * visualizerGain) /\
    (0 <= v <= 1)%R.
Proof.
  intros inputData s _. cbv zeta.
  change (volume (final (onaudioprocess inputData s))) with (loudness inputData).
  split; [|apply loudness_bounds].
  unfold clampUnit, rootMeanSquare, visualizerGain.
  rewrite <- sumOfSquares_squares.
  fold (loudness inputData).
  symmetry. apply Rmax_right. apply loudness_bounds.
Qed.

(* ===================================================================== *)
(** ** Transcript accumulator                                              *)
(* ===================================================================== *)

Section Strings.

Local Open Scope string_scope.

Lemma append_empty_r t : t ++ EmptyString = t.
Proof. induction t as [|c t IH]; cbn; congruence. Qed.

Lemma append_assoc a b c : (a ++ b) ++ c = a ++ (b ++ c).
Proof. induction a as [|x a IH]; cbn; congruence. Qed.

Lemma truthyString_false t : JS.truthyString t = false -> t = EmptyString.
Proof. destruct t; [reflexivity | discriminate]. Qed.

Lemma append_is_empty a b : a ++ b = EmptyString -> a = EmptyString /\ b = EmptyString.
Proof. destruct a; cbn; [auto | discriminate]. Qed.

End Strings.

Lemma lastOf_app {A : Type} (l : list A) x : JS.lastOf (l ++ [x]) = Some x.
Proof.
  induction l as [|y l IH]; [reflexivity|].
  cbn. destruct (l ++ [x]) eqn:E; [destruct l; discriminate | exact IH].
Qed.

Lemma lastOf_some {A : Type} (l : list A) x :
  JS.lastOf l = Some x -> l = removelast l ++ [x].
Proof.
  induction l as [|y l IH]; [discriminate|].
  destruct l as [|z l].
  - cbn. congruence.
  - intros H. change (JS.lastOf (z :: l) = Some x) in H.
    change (y :: z :: l = y :: (removelast (z :: l) ++ [x])).
    f_equal. apply IH, H.
Qed.

Lemma lastOf_In {A : Type} (l : list A) x : JS.lastOf l = Some x -> In x l.
Proof.
  intros H. apply lastOf_some in H. rewrite H.
  apply in_or_app. right. left. reflexivity.
Qed.



Lemma truthyFlag_true o : JS.truthyFlag o = true -> o = Some true.
Proof. destruct o as [[|]|]; cbn; congruence. Qed.

Lemma Role_eqb_eq a b : Role_eqb a b = true <-> a = b.
Proof. destruct a, b; cbn; split; congruence. Qed.

Lemma partialOf_spec r m :
  partialOf r m = true <-> role m = r /\ isPartial m = Some true.
Proof.
  unfold partialOf. rewrite andb_true_iff, Role_eqb_eq. split.
  - intros [Hr Hp]. split; [exact Hr | apply truthyFlag_true, Hp].
  - intros [Hr Hp]. rewrite Hp. tauto.
Qed.

(** *** The updater given to [setMessages] *)

(** The updater leaves the standing transcript and puts exactly one partial
    message of the role behind it, holding the accumulated text. *)
Lemma accumulate_standing r current now date prev :
  exists m,
    accumulate r current now date prev = standing r prev ++ [m] /\
    role m = r /\ isPartial m = Some true /\ text m = current.
Proof.
  unfold accumulate, standing. fold (partialOf r).
  destruct (JS.lastOf prev) as [last|] eqn:El.
  - fold (partialOf r last). destruct (partialOf r last) eqn:Ep.
    + apply partialOf_spec in Ep. destruct Ep as [Hr Hp].
      exists (withText current last). cbn. auto.
    + exists (partialMessage r current now date). cbn. auto.
  - exists (partialMessage r current now date). cbn. auto.
Qed.


(** Otherwise it appends a new partial message. *)
Lemma accumulate_append r current now date prev :
  (forall last, JS.lastOf prev = Some last -> partialOf r last = false) ->
  accumulate r current now date prev =
  prev ++ [partialMessage r current now date].
Proof.
  intros H. unfold accumulate.
  destruct (JS.lastOf prev) as [last|] eqn:El; [|reflexivity].
  fold (partialOf r last). rewrite (H last eq_refl). reflexivity.
Qed.

(** *** One event, seen from one stream *)

Lemma received_messages d env t s :
  messages (received d env t s) =
  accumulate (roleOf d) (currentTranscription d s ++ t)%string
    (nowOf d env) (dateOf d env) (messages s).
Proof. destruct d; reflexivity. Qed.

Lemma received_current d env t s :
  currentTranscription d (received d env t s) =
  (currentTranscription d s ++ t)%string.
Proof. destruct d; reflexivity. Qed.

Lemma afterAudio_transcript env message s :
  transcriptOf (afterAudio env message s) = transcriptOf s.
Proof.
  unfold afterAudio. destruct (outputAudioContextRef s); [|reflexivity].
  destruct (audible message s); reflexivity.
Qed.

Lemma afterTranscription_falsy d env message s :
  JS.truthyString (textFor d message) = false ->
  afterTranscription d env message s = s.
Proof.
  unfold textFor, afterTranscription.
  destruct (transcription d message) as [t|]; [|reflexivity].
  intros ->. reflexivity.
Qed.

Lemma afterTranscription_truthy d env message s :
  JS.truthyString (textFor d message) = true ->
  afterTranscription d env message s = received d env (textFor d message) s.
Proof.
  unfold textFor, afterTranscription.
  destruct (transcription d message) as [t|]; [|discriminate].
  intros ->. reflexivity.
Qed.

Lemma transcriptOf_current d s s' :
  transcriptOf s' = transcriptOf s ->
  messages s' = messages s /\
  currentTranscription d s' = currentTranscription d s.
Proof.
  unfold transcriptOf. intros H. injection H as H1 H2 H3.
  destruct d; auto.
Qed.

(** A message that is calm for stream [d] either carries no text for [d]
    and leaves the transcript, or runs the updater on the accumulation ref
    extended by its text. *)
Lemma calm_message d env message s :
  calm d (OnMessage env message) = true ->
  let s' := final (onmessage env message s) in
  messages s' =
    (if JS.truthyString (textFor d message)
     then accumulate (roleOf d)
            (currentTranscription d s ++ textFor d message)%string
            (nowOf d env) (dateOf d env) (messages s)
     else messages s) /\
  currentTranscription d s' =
    (currentTranscription d s ++ textFor d message)%string.
Proof.
  cbn [calm]. rewrite !andb_true_iff, !negb_true_iff.
  intros [[Ho Ht] Hi]. cbv zeta.
  rewrite onmessage_run. cbn [final].
  unfold afterInterrupted, beforeInterrupted, afterTurnComplete.
  rewrite Hi, Ht.
  destruct (transcriptOf_current d (afterAudio_transcript env message s))
    as [Hm Hc].
  assert (E : afterTranscription Input env message
                (afterTranscription Output env message (afterAudio env message s))
              = afterTranscription d env message (afterAudio env message s)).
  { destruct d; cbn [other] in Ho.
    - rewrite (afterTranscription_falsy Input) by exact Ho. reflexivity.
    - rewrite (afterTranscription_falsy Output) by exact Ho. reflexivity. }
  rewrite E.
  destruct (JS.truthyString (textFor d message)) eqn:Et.
  - rewrite afterTranscription_truthy by exact Et.
    rewrite received_messages, received_current, Hm, Hc. auto.
  - rewrite afterTranscription_falsy by exact Et.
    apply truthyString_false in Et. rewrite Et, append_empty_r. auto.
Qed.

Lemma calm_step d ev s :
  calm d ev = true ->
  exists now date,
    let s' := final (handle ev s) in
    messages s' =
      (if JS.truthyString (heard d ev)
       then accumulate (roleOf d) (currentTranscription d s ++ heard d ev)%string
              now date (messages s)
       else messages s) /\
    currentTranscription d s' = (currentTranscription d s ++ heard d ev)%string.
Proof.
  intros H.
  destruct ev; try discriminate;
    try (exists 0%Z, 0%Z; cbn [heard JS.truthyString handle]; cbv zeta;
         rewrite append_empty_r).
  - destruct settled as [e1|st]; [|destruct live as [e2|p]];
      split; destruct d; reflexivity.
  - unfold onopen. erewrite bind_inr by reflexivity.
    erewrite bind_inr by reflexivity. cbn [final].
    destruct (inputAudioContextRef _); [destruct (mediaStreamRef _)|];
      split; destruct d; reflexivity.
  - split; destruct d; reflexivity.
  - exists (nowOf d env), (dateOf d env). apply calm_message, H.
  - split; destruct d; reflexivity.
  - split; destruct d; reflexivity.
  - split; destruct d; reflexivity.
Qed.







(** *** Turn ends *)

Lemma finalized_all ms :
  Forall (fun m => isPartial m = Some false) (map finalized ms).
Proof. induction ms; cbn; constructor; auto. Qed.

Lemma onmessage_fragment d env t s :
  final (onmessage env (fragment d t) s) =
  if JS.truthyString t then received d env t s else s.
Proof.
  rewrite onmessage_run. cbn [final]. unfold beforeInterrupted.
  rewrite afterAudio_silent by (destruct d; reflexivity).
  unfold afterInterrupted, afterTurnComplete, afterTranscription.
  destruct d; cbn; destruct (JS.truthyString t); reflexivity.
Qed.

(** In a transcript of final messages, with an empty accumulation ref, a
    fragment whose text is not empty starts a new message. *)
Lemma fresh_start d env t s :
  Forall (fun m => isPartial m = Some false) (messages s) ->
  currentTranscription d s = EmptyString ->
  JS.truthyString t = true ->
  startsNewMessage d env t s.
Proof.
  intros Hf Hc Ht. unfold startsNewMessage.
  rewrite onmessage_fragment, Ht, received_messages, Hc. cbn [append].
  apply accumulate_append. intros last Hl.
  apply lastOf_In in Hl. rewrite Forall_forall in Hf.
  unfold partialOf. rewrite (Hf last Hl). cbn. apply andb_false_r.
Qed.

Lemma turn_end_state env message s :
  JS.truthyFlag (turnComplete message) || JS.truthyFlag (interrupted message) = true ->
  let s1 := final (onmessage env message s) in
  exists ms,
    messages s1 = map finalized ms /\
    currentInputTranscriptionRef s1 = EmptyString /\
    currentOutputTranscriptionRef s1 = EmptyString.
Proof.
  intros H. cbv zeta. rewrite onmessage_run. cbn [final].
  unfold afterInterrupted.
  destruct (JS.truthyFlag (interrupted message)) eqn:Ei.
  - unfold flushed.
    exists (messages (beforeInterrupted env message s)).
    destruct (outputAudioContextRef _); repeat split.
  - rewrite orb_false_r in H. unfold beforeInterrupted, afterTurnComplete.
    rewrite H. eexists. repeat split.
Qed.

(** A silent event leaves the transcript and both accumulation refs. *)
Lemma silent_step ev s :
  silent ev = true -> transcriptOf (final (handle ev s)) = transcriptOf s.
Proof.
  unfold silent. rewrite andb_true_iff. intros [Ho Hi].
  destruct (calm_step Output ev s Ho) as (n1 & d1 & H1 & H2).
  destruct (calm_step Input ev s Hi) as (n2 & d2 & _ & H3).
  cbv zeta in *.
  assert (Eo : JS.truthyString (heard Output ev) = false).
  { destruct ev; try reflexivity; try discriminate.
    cbn [calm other] in Hi. rewrite !andb_true_iff, !negb_true_iff in Hi.
    tauto. }
  assert (Ei : JS.truthyString (heard Input ev) = false).
  { destruct ev; try reflexivity; try discriminate.
    cbn [calm other] in Ho. rewrite !andb_true_iff, !negb_true_iff in Ho.
    tauto. }
  rewrite Eo in H1.
  apply truthyString_false in Eo. apply truthyString_false in Ei.
  rewrite Eo, append_empty_r in H2. rewrite Ei, append_empty_r in H3.
  cbn [currentTranscription] in H2, H3.
  unfold transcriptOf. rewrite H1, H2, H3. reflexivity.
Qed.

Lemma exec_silent es s :
  forallb silent es = true -> transcriptOf (exec es s) = transcriptOf s.
Proof.
  revert s. induction es as [|ev es IH]; intros s H; cbn in *.
  - reflexivity.
  - apply andb_prop in H. destruct H as [Hev Hes].
    rewrite IH by exact Hes. apply silent_step, Hev.
Qed.

(** C2, as amended.  After a message flagged [turnComplete] or
    [interrupted], every message of the transcript is final and both
    accumulation refs are empty; the very next fragment of either stream
    whose text is not empty, whatever events without text come before it,
    starts a new partial message that holds that text only, behind the
    unchanged earlier messages; a fragment whose text is empty is ignored. *)
Theorem turn_end_finalizes_and_resets :
  forall env message s,
    JS.truthyFlag (turnComplete message) || JS.truthyFlag (interrupted message) = true ->
    let s1 := final (onmessage env message s) in
    Forall (fun m => isPartial m = Some false) (messages s1) /\
    currentInputTranscriptionRef s1 = EmptyString /\
    currentOutputTranscriptionRef s1 = EmptyString /\
    (forall between d env' t,
       forallb silent between = true ->
       JS.truthyString t = true ->
       messages (exec between s1) = messages s1 /\
       startsNewMessage d env' t (exec between s1)) /\
    (forall d env', final (onmessage env' (fragment d EmptyString) s1) = s1).
Proof.
  intros env message s H s1.
  destruct (turn_end_state env message s H) as (ms & Hm & Hi & Ho).
  fold s1 in Hm, Hi, Ho.
  assert (Hf : Forall (fun m => isPartial m = Some false) (messages s1))
    by (rewrite Hm; apply finalized_all).
  split; [exact Hf|]. split; [exact Hi|]. split; [exact Ho|]. split.
  - intros between d env' t Hs Ht.
    pose proof (exec_silent between s1 Hs) as Hx.
    destruct (transcriptOf_current d Hx) as [Hxm Hxc].
    split; [exact Hxm|].
    apply fresh_start; [rewrite Hxm; exact Hf | | exact Ht].
    rewrite Hxc. destruct d; assumption.
  - intros d env'. rewrite onmessage_fragment. reflexivity.
Qed.

(** C2 as stated fails for a fragment whose text is empty: after a
    completed turn it starts no message. *)
Lemma empty_fragment_starts_no_message :
  let s := exec (fragments Output [(sampleEnv, "Hello"%string)]) initialState in
  let s1 := final (onmessage sampleEnv turnCompleteMessage s) in
  JS.truthyFlag (turnComplete turnCompleteMessage) = true /\
  ~ exists m,
      messages (final (onmessage sampleEnv (fragment Input EmptyString) s1)) =
      messages s1 ++ [m].
Proof.
  cbv zeta. split; [reflexivity|].
  intros (m & H). vm_compute in H. discriminate H.
Qed.

Lemma turn_end_finalizes_and_resets_witness :
  let s := exec (fragments Output [(sampleEnv, "Hello"%string)]) sampleOpen in
  let s1 := final (onmessage sampleEnv interruptedMessage s) in
  let between := [OnMessage sampleEnv audioMessage; OnEnded 10] in
  JS.truthyFlag (turnComplete interruptedMessage)
    || JS.truthyFlag (interrupted interruptedMessage) = true /\
  forallb silent between = true /\
  JS.truthyString "Wait" = true /\
  Forall (fun m => isPartial m = Some false) (messages s1) /\
  startsNewMessage Input sampleEnv "Wait" (exec between s1).
Proof.
  cbv zeta.
  destruct (@turn_end_finalizes_and_resets sampleEnv interruptedMessage
              (exec (fragments Output [(sampleEnv, "Hello"%string)]) sampleOpen)
              eq_refl) as (H1 & _ & _ & H4 & _).
  split; [reflexivity|]. split; [reflexivity|]. split; [reflexivity|].
  split; [exact H1|].
  apply (H4 [OnMessage sampleEnv audioMessage; OnEnded 10] Input sampleEnv
            "Wait"%string eq_refl eq_refl).
Defined.

(** C3 at the failing input.  A caller fragment, a callee fragment and a
    second caller fragment, with no turn end in between, leave two partial
    messages of role [user]; the second repeats the text of the first. *)
Theorem interleaved_fragments_leave_two_partials :
  let s := exec [OnMessage sampleEnv (fragment Input "a");
                 OnMessage sampleEnv (fragment Output "b");
                 OnMessage sampleEnv (fragment Input "c")] initialState in
  map (fun m => (role m, text m, isPartial m)) (messages s) =
    [(user, "a"%string, Some true);
     (model, "b"%string, Some true);
     (user, "ac"%string, Some true)] /\
  countPartial user (messages s) = 2%nat.
Proof. cbv zeta. split; vm_compute; reflexivity. Qed.

(** *** The transcript only grows at its end *)

Lemma accumulate_keys r current now date prev :
  exists extra,
    map keyOf (accumulate r current now date prev) = map keyOf prev ++ extra.
Proof.
  unfold accumulate.
  destruct (JS.lastOf prev) as [last|] eqn:El.
  - destruct (Role_eqb (role last) r && JS.truthyFlag (isPartial last)).
    + exists []. apply lastOf_some in El. rewrite El at 2.
      unfold JS.sliceInit. rewrite !map_app, app_nil_r. reflexivity.
    + eexists. rewrite map_app. reflexivity.
  - eexists. rewrite map_app. reflexivity.
Qed.

Lemma finalized_keys ms : map keyOf (map finalized ms) = map keyOf ms.
Proof. rewrite map_map. apply map_ext. reflexivity. Qed.

Lemma afterTranscription_keys d env message s :
  exists extra,
    map keyOf (messages (afterTranscription d env message s)) =
    map keyOf (messages s) ++ extra.
Proof.
  unfold afterTranscription.
  destruct (transcription d message) as [t|];
    [|exists []; rewrite app_nil_r; reflexivity].
  destruct (JS.truthyString t);
    [|exists []; rewrite app_nil_r; reflexivity].
  rewrite received_messages. apply accumulate_keys.
Qed.

Lemma onmessage_keys env message s :
  exists extra,
    map keyOf (messages (final (onmessage env message s))) =
    map keyOf (messages s) ++ extra.
Proof.
  rewrite onmessage_run. cbn [final].
  assert (H1 : messages (afterAudio env message s) = messages s).
  { unfold afterAudio. destruct (outputAudioContextRef s); [|reflexivity].
    destruct (audible message s); reflexivity. }
  destruct (afterTranscription_keys Output env message (afterAudio env message s))
    as (x1 & E1).
  destruct (afterTranscription_keys Input env message
              (afterTranscription Output env message (afterAudio env message s)))
    as (x2 & E2).
  exists (x1 ++ x2).
  assert (H3 : map keyOf (messages (beforeInterrupted env message s)) =
               map keyOf (messages s) ++ x1 ++ x2).
  { unfold beforeInterrupted, afterTurnComplete.
    destruct (JS.truthyFlag (turnComplete message)); cbn [finalizedState];
      [cbn; rewrite finalized_keys|];
      rewrite E2, E1, H1, app_assoc; reflexivity. }
  unfold afterInterrupted, flushed.
  destruct (JS.truthyFlag (interrupted message)); [|exact H3].
  destruct (outputAudioContextRef _); cbn; rewrite finalized_keys; exact H3.
Qed.

Lemma connect_messages env s : messages (final (connect env s)) = messages s.
Proof.
  unfold connect. erewrite bind_inr by apply disconnect_run.
  destruct (inputContext env) as [e1|cin]; [reflexivity|].
  destruct (outputContext env) as [e2|cout]; [reflexivity|].
  destruct (genAI env) as [e3|]; reflexivity.
Qed.

Lemma handle_keys ev s :
  exists extra,
    map keyOf (messages (final (handle ev s))) = map keyOf (messages s) ++ extra.
Proof.
  destruct ev; try apply onmessage_keys;
    exists []; rewrite app_nil_r; f_equal.
  - rewrite handle_connect_run. apply connect_messages.
  - cbn [handle]. destruct settled as [e1|st]; [|destruct live as [e2|p]]; reflexivity.
  - cbn [handle]. rewrite disconnect_run. reflexivity.
  - cbn [handle]. unfold onopen. erewrite bind_inr by reflexivity.
    erewrite bind_inr by reflexivity. cbn [final].
    destruct (inputAudioContextRef _); [destruct (mediaStreamRef _)|]; reflexivity.
Qed.

(** Whatever the events, the messages already in the transcript keep their
    place and their identity (id, role, timestamp); new messages are added
    at the end: the order of the transcript is the order of insertion. *)
Lemma transcript_order_is_insertion_order es :
  forall s,
    exists extra,
      map keyOf (messages (exec es s)) = map keyOf (messages s) ++ extra.
Proof.
  induction es as [|ev es IH]; intros s; cbn [exec].
  - exists []. rewrite app_nil_r. reflexivity.
  - destruct (IH (final (handle ev s))) as (x2 & E2).
    destruct (handle_keys ev s) as (x1 & E1).
    exists (x1 ++ x2). rewrite E2, E1, app_assoc. reflexivity.
Qed.

(* ===================================================================== *)
(** ** The theorems at concrete inputs                                     *)
(* ===================================================================== *)

Lemma playback_units_never_overlap_witness :
  let sA := final (onmessage sampleEnv audioMessage sampleOpen) in
  let sB := exec sampleBetween sA in
  outputAudioContextRef sampleOpen = Some 2 /\
  JS.truthyText (base64Audio audioMessage) = true /\
  JS.truthyFlag (interrupted audioMessage) = false /\
  forallb quiet sampleBetween = true /\
  startsIn (trace (onmessage sampleEnv audioMessage sampleOpen)) =
    [(10, Qmax (nextStartTimeRef sampleOpen) (1 # 2))] /\
  startsIn (trace (onmessage sampleEnvB audioMessage sB)) =
    [(11, Qmax (nextStartTimeRef sB) (5 # 8))] /\
  (Qmax (nextStartTimeRef sampleOpen) (1 # 2) + (1 # 4) <=
   Qmax (nextStartTimeRef sB) (5 # 8))%Q.
Proof.
  cbv zeta.
  assert (Hctx : outputAudioContextRef sampleOpen = Some 2) by reflexivity.
  assert (HA : JS.truthyText (base64Audio audioMessage) = true) by reflexivity.
  assert (HiA : JS.truthyFlag (interrupted audioMessage) = false) by reflexivity.
  assert (Hq : forallb quiet sampleBetween = true) by reflexivity.
  destruct (@playback_units_never_overlap sampleOpen 2 sampleEnv audioMessage
              sampleBetween sampleEnvB audioMessage Hctx HA HiA Hq HA)
    as (H1 & _ & H3 & _ & H5).
  split; [exact Hctx|]. split; [exact HA|]. split; [exact HiA|].
  split; [exact Hq|]. split; [exact H1|]. split; [exact H3 | exact H5].
Defined.

Lemma interruption_flushes_playback_witness :
  let s := exec [OnMessage sampleEnv audioMessage;
                 OnMessage sampleEnvB audioMessage] sampleOpen in
  let o := onmessage sampleEnv interruptedMessage s in
  JS.truthyFlag (interrupted interruptedMessage) = true /\
  sourcesRef s = [10; 11] /\
  result o = inr tt /\
  filter isSourceStop (trace o) = [SourceStop 10; SourceStop 11] /\
  sourcesRef (final o) = [] /\
  nextStartTimeRef (final o) = (3 # 4)%Q.
Proof.
  cbv zeta.
  destruct (@interruption_flushes_playback sampleEnv interruptedMessage
              (exec [OnMessage sampleEnv audioMessage;
                     OnMessage sampleEnvB audioMessage] sampleOpen) eq_refl)
    as (H1 & _ & H3 & H4 & H5).
  split; [reflexivity|]. split; [reflexivity|]. split; [exact H1|].
  split; [exact H3|]. split; [exact H4|].
  apply (H5 2). reflexivity.
Defined.

Lemma failure_surfaces_one_error_witness :
  let ev := ConnectResume sampleProps (inl permissionDenied) (inr 4) in
  let s := final (handle (Connect sampleConnectEnv) initialState) in
  let o := handle ev s in
  failureOf ev = Some permissionDenied /\
  error (final o) = Some "Permission denied"%string /\
  isConnected (final o) = false /\
  NoDup (filter isAcquire (trace o)).
Proof.
  cbv zeta.
  assert (Hf : failureOf (ConnectResume sampleProps (inl permissionDenied) (inr 4))
               = Some permissionDenied) by reflexivity.
  destruct (@failure_surfaces_one_error
              (ConnectResume sampleProps (inl permissionDenied) (inr 4))
              (final (handle (Connect sampleConnectEnv) initialState))
              permissionDenied Hf) as (H1 & _ & H3 & H4 & _).
  split; [exact Hf|]. split; [exact H1|]. split; [exact H3 | exact H4].
Defined.

Lemma loudness_is_clamped_rms_witness :
  sampleFrame <> [] /\
  (0 <= volume (final (onaudioprocess sampleFrame sampleOpen)) <= 1)%R.
Proof.
  assert (H : sampleFrame <> []) by discriminate.
  split; [exact H|].
  apply (@loudness_is_clamped_rms sampleFrame sampleOpen H).
Defined.


(* ===================================================================== *)
(** ** Further properties of the transcript                                *)
(* ===================================================================== *)

Lemma keeps_refl m : keeps m m.
Proof. split; auto. Qed.

Lemma keeps_trans a b c : keeps a b -> keeps b c -> keeps a c.
Proof.
  intros [K1 F1] [K2 F2]. split; [congruence|].
  intros H. destruct (F1 H) as [T1 P1]. destruct (F2 P1) as [T2 P2].
  split; congruence.
Qed.

Lemma Forall2_keeps_refl ms : Forall2 keeps ms ms.
Proof. induction ms; constructor; auto using keeps_refl. Qed.

Lemma Forall2_keeps_trans a b c :
  Forall2 keeps a b -> Forall2 keeps b c -> Forall2 keeps a c.
Proof.
  intros H. revert c. induction H as [|x y a b Hxy Hab IH]; intros c Hc.
  - inversion Hc. constructor.
  - inversion Hc as [|? z ? c' Hyz Hbc]; subst.
    constructor; [eapply keeps_trans; eassumption | apply IH, Hbc].
Qed.

Lemma continues_refl ms : continues ms ms.
Proof.
  exists ms, []. split; [rewrite app_nil_r; reflexivity | apply Forall2_keeps_refl].
Qed.

Lemma continues_trans a b c : continues a b -> continues b c -> continues a c.
Proof.
  intros (k1 & x1 & -> & H1) (k2 & x2 & -> & H2).
  apply Forall2_app_inv_l in H2. destruct H2 as (p1 & p2 & Hp1 & Hp2 & ->).
  exists p1, (p2 ++ x2). split; [rewrite app_assoc; reflexivity|].
  eapply Forall2_keeps_trans; eassumption.
Qed.

Lemma accumulate_continues r current now date prev :
  continues prev (accumulate r current now date prev).
Proof.
  unfold accumulate.
  destruct (JS.lastOf prev) as [last|] eqn:El.
  - destruct (Role_eqb (role last) r && JS.truthyFlag (isPartial last)) eqn:Ep.
    + apply andb_prop in Ep. destruct Ep as [_ Ep].
      exists (JS.sliceInit prev ++ [withText current last]), [].
      split; [rewrite app_nil_r; reflexivity|].
      apply lastOf_some in El. rewrite El at 1. unfold JS.sliceInit.
      apply Forall2_app; [apply Forall2_keeps_refl|].
      constructor; [|constructor].
      split; [reflexivity|]. intros H. congruence.
    + exists prev, [partialMessage r current now date].
      split; [reflexivity | apply Forall2_keeps_refl].
  - exists prev, [partialMessage r current now date].
    split; [reflexivity | apply Forall2_keeps_refl].
Qed.

Lemma finalized_continues ms : continues ms (map finalized ms).
Proof.
  exists (map finalized ms), []. split; [rewrite app_nil_r; reflexivity|].
  induction ms as [|m ms IH]; cbn; constructor; [|exact IH].
  split; [reflexivity|]. intros _. split; reflexivity.
Qed.

Lemma afterTranscription_continues d env message s :
  continues (messages s) (messages (afterTranscription d env message s)).
Proof.
  unfold afterTranscription.
  destruct (transcription d message) as [t|]; [|apply continues_refl].
  destruct (JS.truthyString t); [|apply continues_refl].
  rewrite received_messages. apply accumulate_continues.
Qed.

Lemma afterAudio_messages env message s :
  messages (afterAudio env message s) = messages s.
Proof.
  pose proof (afterAudio_transcript env message s) as H.
  unfold transcriptOf in H. injection H as H _ _. exact H.
Qed.

Lemma beforeInterrupted_continues env message s :
  continues (messages s) (messages (beforeInterrupted env message s)).
Proof.
  unfold beforeInterrupted.
  eapply continues_trans;
    [|unfold afterTurnComplete;
      destruct (JS.truthyFlag (turnComplete message));
      [apply finalized_continues | apply continues_refl]].
  eapply continues_trans; [|apply afterTranscription_continues].
  eapply continues_trans; [|apply afterTranscription_continues].
  rewrite afterAudio_messages. apply continues_refl.
Qed.

Lemma afterInterrupted_messages env message s :
  messages (afterInterrupted env message s) =
  if JS.truthyFlag (interrupted message)
  then map finalized (messages s) else messages s.
Proof.
  unfold afterInterrupted, flushed.
  destruct (JS.truthyFlag (interrupted message)); [|reflexivity].
  destruct (outputAudioContextRef s); reflexivity.
Qed.

Lemma onmessage_continues env message s :
  continues (messages s) (messages (final (onmessage env message s))).
Proof.
  rewrite onmessage_run. cbn [final]. rewrite afterInterrupted_messages.
  eapply continues_trans; [apply beforeInterrupted_continues|].
  destruct (JS.truthyFlag (interrupted message));
    [apply finalized_continues | apply continues_refl].
Qed.

(** Only [onmessage] changes the transcript. *)
Lemma handle_messages ev s :
  (forall env message, ev <> OnMessage env message) ->
  messages (final (handle ev s)) = messages s.
Proof.
  intros H. destruct ev.
  - rewrite handle_connect_run. apply connect_messages.
  - cbn [handle]. destruct settled as [e1|st]; [|destruct live as [e2|p]]; reflexivity.
  - cbn [handle]. rewrite disconnect_run. reflexivity.
  - cbn [handle]. unfold onopen. erewrite bind_inr by reflexivity.
    erewrite bind_inr by reflexivity. cbn [final].
    destruct (inputAudioContextRef _); [destruct (mediaStreamRef _)|]; reflexivity.
  - reflexivity.
  - exfalso. eapply H. reflexivity.
  - reflexivity.
  - reflexivity.
  - reflexivity.
Qed.

Lemma handle_continues ev s :
  continues (messages s) (messages (final (handle ev s))).
Proof.
  destruct ev; try (rewrite handle_messages by discriminate; apply continues_refl).
  apply onmessage_continues.
Qed.

Lemma exec_continues es :
  forall s, continues (messages s) (messages (exec es s)).
Proof.
  induction es as [|ev es IH]; intros s; cbn [exec].
  - apply continues_refl.
  - eapply continues_trans; [apply handle_continues | apply IH].
Qed.

(** X1.  Whatever events the hook handles, [connect] and [disconnect]
    included, the transcript only grows at its end: every message stays at
    its position with its id, role and timestamp, and a message that is not
    partial keeps its text and never becomes partial again. *)
Theorem final_messages_are_immutable :
  forall es s i m,
    nth_error (messages s) i = Some m ->
    exists m',
      nth_error (messages (exec es s)) i = Some m' /\
      id m' = id m /\ role m' = role m /\ timestamp m' = timestamp m /\
      (JS.truthyFlag (isPartial m) = false ->
       text m' = text m /\ JS.truthyFlag (isPartial m') = false).
Proof.
  intros es s i m Hi.
  destruct (exec_continues es s) as (kept & extra & -> & HF).
  revert i Hi. induction HF as [|x y xs ys Hxy HF IH]; intros i Hi.
  - destruct i; discriminate.
  - destruct i as [|i]; cbn in *.
    + injection Hi as ->. exists y. destruct Hxy as [Hk Hf].
      unfold keyOf in Hk. injection Hk as H1 H2 H3. auto.
    + apply IH, Hi.
Qed.

Lemma final_messages_are_immutable_witness :
  let s := exec [OnMessage sampleEnv (fragment Output "Hello");
                 OnMessage sampleEnv turnCompleteMessage] sampleOpen in
  let es := [OnMessage sampleEnvB (fragment Output "again");
             Disconnect neverThrows;
             OnMessage sampleEnvB (fragment Output "more")] in
  nth_error (messages s) 0 = Some (finalized (partialMessage model "Hello"
                                               1700000000000 1700000000000)) /\
  exists m',
    nth_error (messages (exec es s)) 0 = Some m' /\
    text m' = "Hello"%string /\ JS.truthyFlag (isPartial m') = false.
Proof.
  cbv zeta.
  assert (H0 : nth_error
                 (messages (exec [OnMessage sampleEnv (fragment Output "Hello");
                                  OnMessage sampleEnv turnCompleteMessage] sampleOpen))
                 0 = Some (finalized (partialMessage model "Hello"
                                        1700000000000 1700000000000)))
    by reflexivity.
  split; [exact H0|].
  destruct (@final_messages_are_immutable
              [OnMessage sampleEnvB (fragment Output "again");
               Disconnect neverThrows;
               OnMessage sampleEnvB (fragment Output "more")]
              _ 0 _ H0) as (m' & H1 & _ & _ & _ & H5).
  exists m'. split; [exact H1|]. apply H5. reflexivity.
Defined.

(** *** Neighbouring partial messages *)

Lemma hasClash_app ms x :
  hasClash (ms ++ [x]) =
  hasClash ms ||
  match JS.lastOf ms with
  | Some y => clash y x
  | None => false
  end.
Proof.
  induction ms as [|a ms IH]; [reflexivity|].
  destruct ms as [|b ms].
  - cbn. rewrite orb_false_r. reflexivity.
  - change (hasClash ((a :: b :: ms) ++ [x]))
      with (clash a b || hasClash ((b :: ms) ++ [x])).
    rewrite IH.
    change (hasClash (a :: b :: ms)) with (clash a b || hasClash (b :: ms)).
    change (JS.lastOf (a :: b :: ms)) with (JS.lastOf (b :: ms)).
    rewrite orb_assoc. reflexivity.
Qed.

Lemma clash_withText_r t a b : clash a (withText t b) = clash a b.
Proof. reflexivity. Qed.

Lemma accumulate_clash r current now date prev :
  hasClash prev = false -> hasClash (accumulate r current now date prev) = false.
Proof.
  intros H. unfold accumulate.
  destruct (JS.lastOf prev) as [last|] eqn:El.
  - destruct (Role_eqb (role last) r && JS.truthyFlag (isPartial last)) eqn:Ep.
    + apply lastOf_some in El. rewrite El in H. rewrite hasClash_app in H.
      unfold JS.sliceInit. rewrite hasClash_app.
      destruct (JS.lastOf (removelast prev)); exact H.
    + rewrite hasClash_app, H, El. cbn [orb]. unfold clash. cbn [role isPartial partialMessage].
      rewrite Ep. reflexivity.
  - rewrite hasClash_app, H, El. reflexivity.
Qed.

Lemma finalized_clash ms : hasClash (map finalized ms) = false.
Proof.
  induction ms as [|a ms IH]; [reflexivity|].
  destruct ms as [|b ms]; [reflexivity|].
  change (clash (finalized a) (finalized b) || hasClash (map finalized (b :: ms)) = false).
  rewrite IH. unfold clash. cbn. rewrite andb_false_r. reflexivity.
Qed.

Lemma afterTranscription_clash d env message s :
  hasClash (messages s) = false ->
  hasClash (messages (afterTranscription d env message s)) = false.
Proof.
  intros H. unfold afterTranscription.
  destruct (transcription d message) as [t|]; [|exact H].
  destruct (JS.truthyString t); [|exact H].
  rewrite received_messages. apply accumulate_clash, H.
Qed.

Lemma onmessage_clash env message s :
  hasClash (messages s) = false ->
  hasClash (messages (final (onmessage env message s))) = false.
Proof.
  intros H. rewrite onmessage_run. cbn [final]. rewrite afterInterrupted_messages.
  assert (Hb : hasClash (messages (beforeInterrupted env message s)) = false).
  { unfold beforeInterrupted, afterTurnComplete.
    destruct (JS.truthyFlag (turnComplete message));
      [apply finalized_clash|].
    apply afterTranscription_clash, afterTranscription_clash.
    rewrite afterAudio_messages. exact H. }
  destruct (JS.truthyFlag (interrupted message));
    [apply finalized_clash | exact Hb].
Qed.

(** X2.  From a transcript in which no two neighbouring messages are
    partial messages of the same role, in particular from the empty one, no
    sequence of events leads to a transcript in which two are: a fragment
    that follows a partial message of its role extends it and starts no
    second one next to it. *)
Theorem neighbours_never_both_partial_of_one_role :
  forall es s,
    hasClash (messages s) = false ->
    hasClash (messages (exec es s)) = false.
Proof.
  induction es as [|ev es IH]; intros s H; cbn [exec]; [exact H|].
  apply IH. destruct ev;
    try (rewrite handle_messages by discriminate; exact H).
  apply onmessage_clash, H.
Qed.

Lemma neighbours_never_both_partial_of_one_role_witness :
  let es := [OnMessage sampleEnv (fragment Input "a");
             OnMessage sampleEnv (fragment Output "b");
             OnMessage sampleEnv (fragment Input "c");
             Disconnect neverThrows;
             OnMessage sampleEnv (fragment Input "d")] in
  hasClash (messages initialState) = false /\
  hasClash (messages (exec es initialState)) = false.
Proof.
  cbv zeta. split; [reflexivity|].
  apply (@neighbours_never_both_partial_of_one_role _ initialState eq_refl).
Defined.

(** *** Roles *)

Lemma accumulate_spoken r current now date prev :
  r <> system ->
  forallb spoken prev = true ->
  forallb spoken (accumulate r current now date prev) = true.
Proof.
  intros Hr H. unfold accumulate.
  assert (Hnew : spoken (partialMessage r current now date) = true)
    by (unfold spoken; cbn; destruct r; congruence).
  destruct (JS.lastOf prev) as [last|] eqn:El.
  - destruct (Role_eqb (role last) r && JS.truthyFlag (isPartial last)).
    + apply lastOf_some in El. rewrite El in H. rewrite forallb_app in *.
      apply andb_prop in H. destruct H as [H1 H2].
      unfold JS.sliceInit. rewrite H1. exact H2.
    + rewrite forallb_app, H. cbn. rewrite Hnew. reflexivity.
  - rewrite forallb_app, H. cbn. rewrite Hnew. reflexivity.
Qed.

Lemma finalized_spoken ms :
  forallb spoken (map finalized ms) = forallb spoken ms.
Proof. induction ms as [|m ms IH]; cbn; [reflexivity|]. rewrite IH. reflexivity. Qed.

Lemma afterTranscription_spoken d env message s :
  forallb spoken (messages s) = true ->
  forallb spoken (messages (afterTranscription d env message s)) = true.
Proof.
  intros H. unfold afterTranscription.
  destruct (transcription d message) as [t|]; [|exact H].
  destruct (JS.truthyString t); [|exact H].
  rewrite received_messages. apply accumulate_spoken; [destruct d; discriminate | exact H].
Qed.

Lemma onmessage_spoken env message s :
  forallb spoken (messages s) = true ->
  forallb spoken (messages (final (onmessage env message s))) = true.
Proof.
  intros H. rewrite onmessage_run. cbn [final]. rewrite afterInterrupted_messages.
  assert (Hb : forallb spoken (messages (beforeInterrupted env message s)) = true).
  { unfold beforeInterrupted, afterTurnComplete.
    assert (Ht : forallb spoken
                   (messages
                      (afterTranscription Input env message
                         (afterTranscription Output env message
                            (afterAudio env message s)))) = true).
    { apply afterTranscription_spoken, afterTranscription_spoken.
      rewrite afterAudio_messages. exact H. }
    destruct (JS.truthyFlag (turnComplete message)); [|exact Ht].
    cbn. rewrite finalized_spoken. exact Ht. }
  destruct (JS.truthyFlag (interrupted message));
    [rewrite finalized_spoken|]; exact Hb.
Qed.

(** X3.  The hook never writes a message of role [system]: from a
    transcript that holds only [user] and [model] messages, in particular
    from the empty one, every sequence of events leads to such a
    transcript. *)
Theorem transcript_has_no_system_message :
  forall es s,
    forallb spoken (messages s) = true ->
    forallb spoken (messages (exec es s)) = true.
Proof.
  induction es as [|ev es IH]; intros s H; cbn [exec]; [exact H|].
  apply IH. destruct ev;
    try (rewrite handle_messages by discriminate; exact H).
  apply onmessage_spoken, H.
Qed.

Lemma transcript_has_no_system_message_witness :
  let es := [OnMessage sampleEnv (fragment Input "a");
             OnMessage sampleEnv (fragment Output "b");
             OnMessage sampleEnv turnCompleteMessage] in
  forallb spoken (messages sampleOpen) = true /\
  forallb spoken (messages (exec es sampleOpen)) = true.
Proof.
  cbv zeta. split; [reflexivity|].
  apply (@transcript_has_no_system_message _ sampleOpen eq_refl).
Defined.

(* ===================================================================== *)
(** ** Further properties of the playback pipeline                         *)
(* ===================================================================== *)

Lemma Qmax_ahead x y : (y <= x)%Q -> Qmax x y = x.
Proof.
  intros H. unfold Qmax, GenericMinMax.gmax.
  destruct (x ?= y)%Q eqn:E; try reflexivity.
  apply Qlt_alt in E. exfalso. apply (Qlt_not_le _ _ E), H.
Qed.

Lemma Qmax_behind x y : (x < y)%Q -> Qmax x y = y.
Proof.
  intros H. unfold Qmax, GenericMinMax.gmax.
  destruct (x ?= y)%Q eqn:E; [|reflexivity|].
  - apply Qeq_alt in E. rewrite E in H. exfalso. apply (Qlt_irrefl _ H).
  - apply Qgt_alt in E. exfalso. apply (Qlt_irrefl x).
    eapply Qlt_trans; eassumption.
Qed.

(** X4.  With an output context, a message that carries audio starts
    exactly one unit.  If the timeline is ahead of the context's clock, the
    unit starts at the end of the timeline, back to back with the unit
    before it; if the clock has passed the timeline, it starts at the
    clock.  It never starts before the clock. *)
Theorem unit_starts_back_to_back_or_now :
  forall env message s ctx,
    outputAudioContextRef s = Some ctx ->
    JS.truthyText (base64Audio message) = true ->
    let start := Qmax (nextStartTimeRef s) (currentTime env ctx) in
    startsIn (trace (onmessage env message s)) = [(bufferSource env, start)] /\
    ((currentTime env ctx <= nextStartTimeRef s)%Q -> start = nextStartTimeRef s) /\
    ((nextStartTimeRef s < currentTime env ctx)%Q -> start = currentTime env ctx) /\
    (currentTime env ctx <= start)%Q.
Proof.
  intros env message s ctx Hctx Ha start.
  split; [apply (startsIn_onmessage env message s Hctx Ha)|].
  split; [apply Qmax_ahead|]. split; [apply Qmax_behind | apply Q.le_max_r].
Qed.

Lemma unit_starts_back_to_back_or_now_witness :
  let s := final (onmessage sampleEnv audioMessage sampleOpen) in
  outputAudioContextRef s = Some 2 /\
  JS.truthyText (base64Audio audioMessage) = true /\
  (currentTime sampleEnvB 2%nat <= nextStartTimeRef s)%Q /\
  startsIn (trace (onmessage sampleEnvB audioMessage s)) =
    [(11, nextStartTimeRef s)].
Proof.
  cbv zeta.
  assert (Hctx : outputAudioContextRef
                   (final (onmessage sampleEnv audioMessage sampleOpen)) = Some 2)
    by reflexivity.
  assert (Ha : JS.truthyText (base64Audio audioMessage) = true) by reflexivity.
  assert (Hle : (currentTime sampleEnvB 2%nat <=
                 nextStartTimeRef (final (onmessage sampleEnv audioMessage sampleOpen)))%Q)
    by (vm_compute; discriminate).
  destruct (@unit_starts_back_to_back_or_now sampleEnvB audioMessage
              (final (onmessage sampleEnv audioMessage sampleOpen)) 2 Hctx Ha)
    as (H1 & H2 & _).
  split; [exact Hctx|]. split; [exact Ha|]. split; [exact Hle|].
  etransitivity; [exact H1|]. rewrite (H2 Hle). reflexivity.
Defined.

Lemma connect_timeline env s :
  nextStartTimeRef (final (connect env s)) = nextStartTimeRef s.
Proof.
  unfold connect. erewrite bind_inr by apply disconnect_run.
  destruct (inputContext env) as [e1|cin]; [reflexivity|].
  destruct (outputContext env) as [e2|cout]; [reflexivity|].
  destruct (genAI env) as [e3|]; reflexivity.
Qed.

(** Only [onmessage] moves the timeline. *)
Lemma handle_timeline ev s :
  isMessage ev = false ->
  nextStartTimeRef (final (handle ev s)) = nextStartTimeRef s.
Proof.
  intros H. destruct ev; try discriminate.
  - rewrite handle_connect_run. apply connect_timeline.
  - cbn [handle]. destruct settled as [e1|st]; [|destruct live as [e2|p]]; reflexivity.
  - cbn [handle]. rewrite disconnect_run. reflexivity.
  - cbn [handle]. unfold onopen. erewrite bind_inr by reflexivity.
    erewrite bind_inr by reflexivity. cbn [final].
    destruct (inputAudioContextRef _); [destruct (mediaStreamRef _)|]; reflexivity.
  - reflexivity.
  - reflexivity.
  - reflexivity.
  - reflexivity.
Qed.

Lemma exec_timeline es s :
  forallb (fun ev => negb (isMessage ev)) es = true ->
  nextStartTimeRef (exec es s) = nextStartTimeRef s.
Proof.
  revert s. induction es as [|ev es IH]; intros s H; cbn in *; [reflexivity|].
  apply andb_prop in H. destruct H as [Hev Hes].
  rewrite IH by exact Hes. apply handle_timeline.
  apply negb_true_iff, Hev.
Qed.

(** X5.  Nothing but the handling of a message moves the playback
    timeline: [disconnect] and [connect] do not reset it.  So after any
    events that are not messages, a teardown and a new session among them,
    the first unit starts at the maximum of the timeline as it was left and
    the clock of the context that is current then. *)
Theorem timeline_outlives_the_session :
  forall es s env message ctx,
    forallb (fun ev => negb (isMessage ev)) es = true ->
    outputAudioContextRef (exec es s) = Some ctx ->
    JS.truthyText (base64Audio message) = true ->
    nextStartTimeRef (exec es s) = nextStartTimeRef s /\
    startsIn (trace (onmessage env message (exec es s))) =
      [(bufferSource env, Qmax (nextStartTimeRef s) (currentTime env ctx))].
Proof.
  intros es s env message ctx Hes Hctx Ha.
  pose proof (exec_timeline es s Hes) as Ht.
  split; [exact Ht|].
  rewrite (startsIn_onmessage env message (exec es s) Hctx Ha).
  unfold startTime. rewrite Ht. reflexivity.
Qed.

Lemma timeline_outlives_the_session_witness :
  let s := final (onmessage sampleEnvB audioMessage sampleOpen) in
  let es := Disconnect neverThrows :: sampleOpenEvents in
  forallb (fun ev => negb (isMessage ev)) es = true /\
  outputAudioContextRef (exec es s) = Some 2 /\
  JS.truthyText (base64Audio audioMessage) = true /\
  nextStartTimeRef s = (28 # 32)%Q /\
  startsIn (trace (onmessage sampleEnv audioMessage (exec es s))) =
    [(10, Qmax (nextStartTimeRef s) (1 # 2))].
Proof.
  cbv zeta.
  assert (Hes : forallb (fun ev => negb (isMessage ev))
                  (Disconnect neverThrows :: sampleOpenEvents) = true)
    by reflexivity.
  assert (Hctx : outputAudioContextRef
                   (exec (Disconnect neverThrows :: sampleOpenEvents)
                      (final (onmessage sampleEnvB audioMessage sampleOpen)))
                 = Some 2) by reflexivity.
  assert (Ha : JS.truthyText (base64Audio audioMessage) = true) by reflexivity.
  destruct (@timeline_outlives_the_session _ _ sampleEnv audioMessage 2 Hes Hctx Ha)
    as [_ H2].
  split; [exact Hes|]. split; [exact Hctx|]. split; [exact Ha|].
  split; [reflexivity | exact H2].
Defined.

Lemma Qle_plus_nonneg x d : (0 <= d)%Q -> (x <= x + d)%Q.
Proof.
  intros H. rewrite <- (Qplus_0_r x) at 1.
  apply Qplus_le_compat; [apply Qle_refl | exact H].
Qed.

Lemma steady_step ev s :
  steady ev = true ->
  (nextStartTimeRef s <= nextStartTimeRef (final (handle ev s)))%Q.
Proof.
  intros H. destruct (isMessage ev) eqn:Em.
  - destruct ev; try discriminate. cbn [steady] in H.
    apply andb_prop in H. destruct H as [Hi Hd].
    apply negb_true_iff in Hi. apply Qle_bool_iff in Hd.
    cbn [handle]. rewrite onmessage_run. cbn [final].
    unfold afterInterrupted. rewrite Hi.
    pose proof (beforeInterrupted_playback env message s) as Hp.
    unfold playbackOf in Hp. injection Hp as _ ->.
    unfold afterAudio.
    destruct (outputAudioContextRef s) as [ctx|]; [|apply Qle_refl].
    destruct (audible message s); [|apply Qle_refl].
    cbn. eapply Qle_trans; [apply Q.le_max_l | apply Qle_plus_nonneg, Hd].
  - rewrite handle_timeline by exact Em. apply Qle_refl.
Qed.

(** X6.  Between interruptions the playback timeline only moves forward:
    over any events none of which is an interruption, with decoded buffers
    of durations that are not negative, [nextStartTime] never decreases. *)
Theorem timeline_moves_forward :
  forall es s,
    forallb steady es = true ->
    (nextStartTimeRef s <= nextStartTimeRef (exec es s))%Q.
Proof.
  induction es as [|ev es IH]; intros s H; cbn in *; [apply Qle_refl|].
  apply andb_prop in H. destruct H as [Hev Hes].
  eapply Qle_trans; [apply steady_step, Hev | apply IH, Hes].
Qed.

Lemma timeline_moves_forward_witness :
  let es := [OnMessage sampleEnv audioMessage;
             OnMessage sampleEnv turnCompleteMessage;
             OnMessage sampleEnvB audioMessage] in
  forallb steady es = true /\
  (nextStartTimeRef sampleOpen <= nextStartTimeRef (exec es sampleOpen))%Q.
Proof.
  cbv zeta.
  assert (H : forallb steady
                [OnMessage sampleEnv audioMessage;
                 OnMessage sampleEnv turnCompleteMessage;
                 OnMessage sampleEnvB audioMessage] = true) by reflexivity.
  split; [exact H|].
  apply (@timeline_moves_forward _ sampleOpen H).
Defined.

Lemma setDelete_gone x l : ~ In x (setDelete x l).
Proof.
  unfold setDelete. intros H. apply filter_In in H. destruct H as [_ H].
  rewrite Nat.eqb_refl in H. discriminate.
Qed.

Lemma setDelete_others x y l : y <> x -> (In y (setDelete x l) <-> In y l).
Proof.
  intros Hn. unfold setDelete. rewrite filter_In. split; [tauto|].
  intros H. split; [exact H|].
  apply negb_true_iff, Nat.eqb_neq. congruence.
Qed.

Lemma setAdd_In x y l : In y (setAdd x l) -> y = x \/ In y l.
Proof.
  unfold setAdd. destruct (existsb (Nat.eqb x) l); [tauto|].
  intros H. apply in_app_or in H. destruct H as [H|[H|[]]]; auto.
Qed.

(** X7.  A unit whose playback has ended is forgotten and the other units
    stay tracked: a later interruption, or a later [disconnect], calls
    [stop()] on the units still tracked and not on the one that ended. *)
Theorem ended_unit_is_not_stopped :
  forall source s,
    let s1 := final (onended source s) in
    ~ In source (sourcesRef s1) /\
    (forall other, other <> source ->
       (In other (sourcesRef s1) <-> In other (sourcesRef s))) /\
    (forall stopThrows, ~ In (SourceStop source) (trace (disconnect stopThrows s1))) /\
    (forall env message,
       bufferSource env <> source ->
       ~ In (SourceStop source) (trace (onmessage env message s1))).
Proof.
  intros source s s1.
  assert (Hgone : ~ In source (sourcesRef s1)) by apply setDelete_gone.
  split; [exact Hgone|]. split; [|split].
  - intros other Hn. apply setDelete_others, Hn.
  - intros st Hin. rewrite disconnect_run in Hin. cbn [trace] in Hin.
    unfold teardownOps in Hin.
    repeat (apply in_app_or in Hin; destruct Hin as [Hin|Hin]);
      try (apply in_map_iff in Hin; destruct Hin as (x & Hx & Hin);
           injection Hx as ->; exact (Hgone Hin));
      match type of Hin with
      | In _ (onSet _ ?r) => destruct r; cbn in Hin; intuition discriminate
      end.
  - intros env message Hn Hin. rewrite onmessage_run in Hin. cbn [trace] in Hin.
    apply in_app_or in Hin. destruct Hin as [Hin|Hin].
    + unfold audioOps in Hin.
      destruct (base64Audio message); [|destruct Hin].
      destruct (outputAudioContextRef s1); [|destruct Hin].
      destruct (JS.truthyString _); cbn in Hin; intuition discriminate.
    + unfold interruptOps in Hin.
      destruct (JS.truthyFlag (interrupted message)); [|destruct Hin].
      apply in_map_iff in Hin. destruct Hin as (x & Hx & Hin).
      injection Hx as ->.
      pose proof (beforeInterrupted_playback env message s1) as Hp.
      unfold playbackOf in Hp. injection Hp as Hp _. rewrite Hp in Hin.
      unfold afterAudio in Hin.
      destruct (outputAudioContextRef s1); [|exact (Hgone Hin)].
      destruct (audible message s1); [|exact (Hgone Hin)].
      cbn in Hin. apply setAdd_In in Hin. destruct Hin as [Hin|Hin];
        [congruence | exact (Hgone Hin)].
Qed.

Lemma ended_unit_is_not_stopped_witness :
  let s := exec [OnMessage sampleEnv audioMessage;
                 OnMessage sampleEnvB audioMessage] sampleOpen in
  let s1 := final (onended 10 s) in
  bufferSource sampleEnv <> 11 /\
  sourcesRef s = [10; 11] /\
  sourcesRef s1 = [11] /\
  ~ In (SourceStop 10) (trace (onmessage sampleEnvB interruptedMessage s1)).
Proof.
  cbv zeta.
  destruct (@ended_unit_is_not_stopped 10
              (exec [OnMessage sampleEnv audioMessage;
                     OnMessage sampleEnvB audioMessage] sampleOpen))
    as (_ & _ & _ & H4).
  split; [discriminate|]. split; [reflexivity|]. split; [reflexivity|].
  apply H4. discriminate.
Defined.

(* ===================================================================== *)
(** ** Further properties of the session lifecycle                         *)
(* ===================================================================== *)

Lemma connect_success_run env s cin cout :
  inputContext env = inr cin ->
  outputContext env = inr cout ->
  genAI env = None ->
  connect env s =
  mkOutcome (waitingForMicrophone cin cout s) (teardownOps s ++ acquisitions)
    (inr true).
Proof.
  intros H1 H2 H3. unfold connect.
  erewrite bind_inr by apply disconnect_run.
  rewrite H1, H2, H3. reflexivity.
Qed.

Lemma teardownOps_no_acquire_each s : forallb (fun o => negb (isAcquire o)) (teardownOps s) = true.
Proof.
  unfold teardownOps. rewrite !forallb_app.
  destruct (inputAudioContextRef s), (outputAudioContextRef s),
    (mediaStreamRef s), (scriptProcessorRef s), (sessionPromiseRef s);
    cbn; rewrite ?andb_true_r;
    induction (sourcesRef s); cbn; auto.
Qed.

(** X9.  When the microphone is refused, the [catch] block releases
    nothing: the two audio contexts that [connect] had opened stay in their
    refs, open, while the error is shown and the flag is false.  The next
    [disconnect] closes exactly these two contexts. *)
Theorem refused_microphone_keeps_the_contexts :
  forall env s cin cout props err live stopThrows,
    inputContext env = inr cin ->
    outputContext env = inr cout ->
    genAI env = None ->
    let s1 := final (connect env s) in
    let o := connect_resume props (inl err) live s1 in
    trace o = [] /\
    refsOf (final o) = (Some cin, Some cout, None, None, None) /\
    error (final o) = Some (JS.orElse (JS.message err) "Failed to connect") /\
    isConnected (final o) = false /\
    trace (disconnect stopThrows (final o)) =
      [AudioContextClose cin; AudioContextClose cout].
Proof.
  intros env s cin cout props err live st H1 H2 H3. cbv zeta.
  rewrite (connect_success_run env s H1 H2 H3). cbn [final].
  rewrite disconnect_run. repeat split.
Qed.

Lemma refused_microphone_keeps_the_contexts_witness :
  let s1 := final (connect sampleConnectEnv initialState) in
  let o := connect_resume sampleProps (inl permissionDenied) (inr 4) s1 in
  inputContext sampleConnectEnv = inr 1 /\
  outputContext sampleConnectEnv = inr 2 /\
  genAI sampleConnectEnv = None /\
  trace o = [] /\
  trace (disconnect neverThrows (final o)) =
    [AudioContextClose 1; AudioContextClose 2].
Proof.
  cbv zeta.
  destruct (@refused_microphone_keeps_the_contexts sampleConnectEnv initialState
              1 2 sampleProps permissionDenied (inr 4) neverThrows
              eq_refl eq_refl eq_refl) as (H1 & _ & _ & _ & H5).
  split; [reflexivity|]. split; [reflexivity|]. split; [reflexivity|].
  split; [exact H1 | exact H5].
Defined.

Lemma onopen_run processor s :
  onopen processor s =
  match inputAudioContextRef s, mediaStreamRef s with
  | Some c, Some m =>
      mkOutcome (set_scriptProcessorRef (Some processor) (set_isConnected true s))
        [CreateMediaStreamSource c m; CreateScriptProcessor c 4096 processor;
         ConnectProcessor c processor] (inr tt)
  | _, _ => mkOutcome (set_isConnected true s) [] (inr tt)
  end.
Proof.
  unfold onopen. erewrite bind_inr by reflexivity.
  erewrite bind_inr by reflexivity. cbn [final trace result app].
  change (inputAudioContextRef (set_isConnected true s))
    with (inputAudioContextRef s).
  change (mediaStreamRef (set_isConnected true s)) with (mediaStreamRef s).
  destruct (inputAudioContextRef s); [destruct (mediaStreamRef s)|]; reflexivity.
Qed.

Lemma connect_fields env s :
  exists s1 e,
    final (connect env s) = set_isConnected false (set_error e s1) /\
    (e = None -> connectFailure env = None).
Proof.
  unfold connect, connectFailure. erewrite bind_inr by apply disconnect_run.
  destruct (inputContext env) as [e1|cin];
    [eexists _, (Some _); split; [reflexivity | discriminate]|].
  destruct (outputContext env) as [e2|cout];
    [eexists _, (Some _); split; [reflexivity | discriminate]|].
  destruct (genAI env) as [e3|];
    [eexists _, (Some _); split; [reflexivity | discriminate]|].
  exists (set_outputAudioContextRef (Some cout)
            (set_inputAudioContextRef (Some cin) (tornDown s))), None.
  split; reflexivity.
Qed.

(** X10.  An error text is sticky.  No event other than a call of
    [connect] clears it: if an error is shown before the event, one is shown
    after it; and an event that delivers no failure leaves the error cell
    as it is.  [disconnect], in particular, keeps the error. *)
Theorem only_connect_clears_the_error :
  forall ev s,
    isConnectCall ev = false ->
    let s' := final (handle ev s) in
    (error s <> None -> error s' <> None) /\
    (failureOf ev = None -> error s' = error s).
Proof.
  intros ev s H. cbv zeta. destruct ev; try discriminate; cbn [handle failureOf].
  - destruct settled as [e1|st]; [|destruct live as [e2|p]]; cbn;
      split; intros; congruence.
  - rewrite disconnect_run. cbn. tauto.
  - rewrite onopen_run.
    destruct (inputAudioContextRef s); [destruct (mediaStreamRef s)|]; cbn; tauto.
  - cbn. tauto.
  - rewrite onmessage_run. cbn [final].
    assert (E : error (afterInterrupted env message
                         (beforeInterrupted env message s)) = error s).
    { unfold afterInterrupted, flushed, beforeInterrupted, afterTurnComplete,
        afterTranscription, afterAudio.
      repeat match goal with
             | |- context [match ?x with _ => _ end] => destruct x
             end; reflexivity. }
    rewrite E. tauto.
  - cbn. split; intros; congruence.
  - cbn. tauto.
  - cbn. tauto.
Qed.

Lemma only_connect_clears_the_error_witness :
  let s := final (handle (OnError permissionDenied) sampleOpen) in
  let s' := final (handle (Disconnect neverThrows) s) in
  isConnectCall (Disconnect neverThrows) = false /\
  error s <> None /\
  failureOf (Disconnect neverThrows) = None /\
  error s' = Some "Permission denied"%string.
Proof.
  cbv zeta.
  destruct (@only_connect_clears_the_error (Disconnect neverThrows)
              (final (handle (OnError permissionDenied) sampleOpen)) eq_refl)
    as [_ H2].
  split; [reflexivity|]. split; [discriminate|]. split; [reflexivity|].
  rewrite (H2 eq_refl). reflexivity.
Defined.

Lemma onmessage_isConnected env message s :
  isConnected (final (onmessage env message s)) = isConnected s.
Proof.
  rewrite onmessage_run. cbn [final].
  unfold afterInterrupted, flushed, beforeInterrupted, afterTurnComplete,
    afterTranscription, afterAudio.
  repeat match goal with
         | |- context [match ?x with _ => _ end] => destruct x
         end; reflexivity.
Qed.

(** X11.  The connection flag is raised by [onopen] and by nothing else:
    over any event that is not [onopen], a flag that is false stays false;
    and it is false after [connect], [disconnect], a remote error or close,
    and any failure of acquisition. *)
Theorem only_onopen_raises_the_flag :
  forall ev s,
    let s' := final (handle ev s) in
    (isOpen ev = false -> isConnected s = false -> isConnected s' = false) /\
    (isTeardown ev = true \/ isRemoteEnd ev = true \/ failureOf ev <> None ->
     isConnected s' = false).
Proof.
  intros ev s. cbv zeta.
  destruct ev; cbn [isOpen isTeardown isRemoteEnd failureOf].
  - rewrite handle_connect_run. cbn [final].
    destruct (connect_fields env s) as (s1 & e & -> & _). split; reflexivity.
  - cbn [handle].
    destruct settled as [e1|st]; [|destruct live as [e2|p]]; cbn;
      (split; [auto | intros [H|[H|H]]; try discriminate; try reflexivity;
                      exfalso; apply H; reflexivity]).
  - cbn [handle]. rewrite disconnect_run. split; reflexivity.
  - split; [discriminate | intros [H|[H|H]]; try discriminate;
                           exfalso; apply H; reflexivity].
  - cbn [handle].
    split; [auto | intros [H|[H|H]]; try discriminate;
                   exfalso; apply H; reflexivity].
  - cbn [handle]. rewrite onmessage_isConnected.
    split; [auto | intros [H|[H|H]]; try discriminate;
                   exfalso; apply H; reflexivity].
  - split; reflexivity.
  - split; reflexivity.
  - cbn [handle].
    split; [auto | intros [H|[H|H]]; try discriminate;
                   exfalso; apply H; reflexivity].
Qed.

Lemma only_onopen_raises_the_flag_witness :
  let ev := ConnectResume sampleProps (inr 3) (inr 4) in
  let s := final (handle (Connect sampleConnectEnv) initialState) in
  isOpen ev = false /\
  isConnected s = false /\
  isConnected (final (handle ev s)) = false /\
  sessionPromiseRef (final (handle ev s)) = Some 4.
Proof.
  cbv zeta.
  destruct (@only_onopen_raises_the_flag
              (ConnectResume sampleProps (inr 3) (inr 4))
              (final (handle (Connect sampleConnectEnv) initialState)))
    as [H _].
  split; [reflexivity|]. split; [reflexivity|].
  split; [apply H; reflexivity | reflexivity].
Defined.

(** X12.  An [onopen] that arrives after [disconnect] raises the
    connection flag although no resource is held: it sets up no capture,
    performs no operation and leaves every ref null.  With an input context
    and a stream, [onopen] creates one script processor of 4096 samples,
    stores it and connects it. *)
Theorem late_onopen_raises_the_flag_only :
  (forall stopThrows processor s,
     let o := onopen processor (final (disconnect stopThrows s)) in
     isConnected (final o) = true /\
     trace o = [] /\
     allReleased (final o)) /\
  (forall processor s c m,
     inputAudioContextRef s = Some c ->
     mediaStreamRef s = Some m ->
     let o := onopen processor s in
     isConnected (final o) = true /\
     scriptProcessorRef (final o) = Some processor /\
     trace o = [CreateMediaStreamSource c m;
                CreateScriptProcessor c 4096 processor;
                ConnectProcessor c processor]).
Proof.
  split.
  - intros st processor s. cbv zeta. rewrite disconnect_run, onopen_run.
    cbn. repeat split.
  - intros processor s c m Hc Hm. cbv zeta. rewrite onopen_run, Hc, Hm.
    repeat split.
Qed.

Lemma late_onopen_raises_the_flag_only_witness :
  let s := exec [Connect sampleConnectEnv;
                 ConnectResume sampleProps (inr 3) (inr 4)] initialState in
  inputAudioContextRef s = Some 1 /\
  mediaStreamRef s = Some 3 /\
  scriptProcessorRef (final (onopen 5 s)) = Some 5.
Proof.
  cbv zeta.
  destruct late_onopen_raises_the_flag_only as [_ H].
  destruct (H 5 (exec [Connect sampleConnectEnv;
                       ConnectResume sampleProps (inr 3) (inr 4)] initialState)
              1 3 eq_refl eq_refl) as (_ & H2 & _).
  split; [reflexivity|]. split; [reflexivity | exact H2].
Defined.

Lemma onSet_In {A : Type} (op : A -> Op) (r : option A) x :
  In x (onSet op r) -> exists a, r = Some a /\ op a = x.
Proof.
  destruct r as [a|]; cbn; [|tauto].
  intros [H|[]]. exists a. auto.
Qed.

Ltac teardown_cases H :=
  unfold teardownOps in H;
  repeat (apply in_app_or in H; destruct H as [H|H]);
  try (apply onSet_In in H; destruct H as (? & ? & H); try discriminate H);
  try (apply in_map_iff in H; destruct H as (? & H & _); discriminate H).

Lemma StopTracks_in_teardown m s :
  In (StopTracks m) (teardownOps s) <-> mediaStreamRef s = Some m.
Proof.
  split; intros H.
  - teardown_cases H. injection H as <-. assumption.
  - unfold teardownOps. rewrite H.
    do 2 (apply in_or_app; right). apply in_or_app. left. left. reflexivity.
Qed.

Lemma ThenClose_in_teardown p s :
  In (ThenClose p) (teardownOps s) <-> sessionPromiseRef s = Some p.
Proof.
  split; intros H.
  - teardown_cases H. injection H as <-. assumption.
  - unfold teardownOps. rewrite H.
    do 5 (apply in_or_app; right). left. reflexivity.
Qed.

Lemma closesAttached_app a b :
  closesAttached (a ++ b) = closesAttached a ++ closesAttached b.
Proof. apply flat_map_app. Qed.

Lemma closesAttached_stops l : closesAttached (map SourceStop l) = [].
Proof. induction l; cbn; auto. Qed.

Lemma closesAttached_teardownOps s : closesAttached (teardownOps s) = heldSession s.
Proof.
  unfold teardownOps, heldSession. rewrite !closesAttached_app, closesAttached_stops.
  destruct (inputAudioContextRef s), (outputAudioContextRef s),
    (mediaStreamRef s), (scriptProcessorRef s), (sessionPromiseRef s);
    reflexivity.
Qed.

Lemma SessionClose_not_in_teardown p s : ~ In (SessionClose p) (teardownOps s).
Proof. intros H. teardown_cases H. Qed.

(** X13.  When two calls of [connect] overlap, so that both are resumed
    after the second one's teardown, the second resumption overwrites the
    stream and the session promise stored by the first without releasing
    them: neither resumption performs a release, and the next [disconnect]
    stops the tracks of the second stream and hands the close to the
    promise of the second session only, so that the first session is not
    closed, in the call or in the continuation that follows it. *)
Theorem overlapping_connects_leak_the_first_stream :
  forall s props1 props2 stream1 stream2 p1 p2 stopThrows,
    stream1 <> stream2 ->
    p1 <> p2 ->
    let es := [ConnectResume props1 (inr stream1) (inr p1);
               ConnectResume props2 (inr stream2) (inr p2)] in
    let s1 := final (handle (ConnectResume props1 (inr stream1) (inr p1)) s) in
    let s2 := exec es s in
    mediaStreamRef s1 = Some stream1 /\
    sessionPromiseRef s1 = Some p1 /\
    mediaStreamRef s2 = Some stream2 /\
    sessionPromiseRef s2 = Some p2 /\
    filter isRelease
      (trace (handle (ConnectResume props1 (inr stream1) (inr p1)) s) ++
       trace (handle (ConnectResume props2 (inr stream2) (inr p2)) s1)) = [] /\
    In (StopTracks stream2) (trace (disconnect stopThrows s2)) /\
    ~ In (StopTracks stream1) (trace (disconnect stopThrows s2)) /\
    ~ In (ThenClose p1) (trace (disconnect stopThrows s2)) /\
    forall w, hook w = s2 ->
      ~ In (SessionClose p1) (snd (worldStep (Hook (Disconnect stopThrows)) w)).
Proof.
  intros s props1 props2 stream1 stream2 p1 p2 st Hs Hp. cbv zeta.
  split; [reflexivity|]. split; [reflexivity|]. split; [reflexivity|].
  split; [reflexivity|]. split; [reflexivity|].
  rewrite disconnect_run. cbn [trace].
  rewrite !StopTracks_in_teardown, ThenClose_in_teardown.
  split; [reflexivity|]. split; [cbn; congruence|]. split; [cbn; congruence|].
  intros w Hw Hin. cbn [worldStep handle snd] in Hin.
  rewrite disconnect_run in Hin. cbn [trace] in Hin.
  rewrite closesAttached_teardownOps in Hin.
  apply in_app_or in Hin. destruct Hin as [Hin|Hin].
  - exact (SessionClose_not_in_teardown _ _ Hin).
  - apply in_map_iff in Hin. destruct Hin as (q & Hq & Hin).
    apply filter_In in Hin. destruct Hin as [Hin _].
    rewrite Hw in Hin. cbn in Hin. destruct Hin as [<- | []]. congruence.
Qed.

Lemma overlapping_connects_leak_the_first_stream_witness :
  let s := exec [Connect sampleConnectEnv; Connect sampleConnectEnv] initialState in
  let s2 := exec [ConnectResume sampleProps (inr 3) (inr 4);
                  ConnectResume sampleProps (inr 6) (inr 7)] s in
  3 <> 6 /\ 4 <> 7 /\
  trace (disconnect neverThrows s2) =
    [AudioContextClose 1; AudioContextClose 2; StopTracks 6; ThenClose 7] /\
  ~ In (StopTracks 3) (trace (disconnect neverThrows s2)).
Proof.
  cbv zeta.
  assert (H1 : 3 <> 6) by discriminate.
  assert (H2 : 4 <> 7) by discriminate.
  destruct (@overlapping_connects_leak_the_first_stream
              (exec [Connect sampleConnectEnv; Connect sampleConnectEnv] initialState)
              sampleProps sampleProps 3 6 4 7 neverThrows H1 H2)
    as (_ & _ & _ & _ & _ & _ & H7 & _).
  split; [exact H1|]. split; [exact H2|].
  split; [vm_compute; reflexivity | exact H7].
Defined.

Lemma handle_volume ev s :
  framed ev = true ->
  (0 <= volume s <= 1)%R ->
  (0 <= volume (final (handle ev s)) <= 1)%R.
Proof.
  intros Hf H. destruct ev; [|cbn [handle]..].
  - rewrite handle_connect_run. cbn [final].
    unfold connect. erewrite bind_inr by apply disconnect_run.
    destruct (inputContext env) as [e1|cin]; [cbn; lra|].
    destruct (outputContext env) as [e2|cout]; [cbn; lra|].
    destruct (genAI env) as [e3|]; cbn; lra.
  - destruct settled as [e1|st]; [|destruct live as [e2|p]]; exact H.
  - rewrite disconnect_run. cbn. lra.
  - rewrite onopen_run.
    destruct (inputAudioContextRef s); [destruct (mediaStreamRef s)|]; exact H.
  - apply loudness_bounds.
  - rewrite onmessage_run. cbn [final].
    assert (E : volume (afterInterrupted env message
                          (beforeInterrupted env message s)) = volume s).
    { unfold afterInterrupted, flushed, beforeInterrupted, afterTurnComplete,
        afterTranscription, afterAudio.
      repeat match goal with
             | |- context [match ?x with _ => _ end] => destruct x
             end; reflexivity. }
    rewrite E. exact H.
  - exact H.
  - exact H.
  - exact H.
Qed.

Lemma exec_volume es :
  forall s,
    forallb framed es = true ->
    (0 <= volume s <= 1)%R ->
    (0 <= volume (exec es s) <= 1)%R.
Proof.
  induction es as [|ev es IH]; intros s Hf H; cbn in *; [exact H|].
  apply andb_prop in Hf. destruct Hf as [Hev Hes].
  apply IH; [exact Hes | apply handle_volume; assumption].
Qed.

(** X14.  The loudness handed to the visualizer always lies between 0 and
    1, as the comment in [types.ts] says: it is 0 initially and after
    [disconnect], and every audio callback with a frame that is not empty
    stores a value in that interval. *)
Theorem volume_stays_in_the_unit_interval :
  forall es,
    forallb framed es = true ->
    (0 <= volume (exec es initialState) <= 1)%R.
Proof.
  intros es Hf. apply exec_volume; [exact Hf | cbn; lra].
Qed.

Lemma volume_stays_in_the_unit_interval_witness :
  let es := sampleOpenEvents ++ [OnAudioProcess sampleFrame; OnClose] in
  forallb framed es = true /\
  (0 <= volume (exec es initialState) <= 1)%R.
Proof.
  cbv zeta.
  assert (H : forallb framed
                (sampleOpenEvents ++ [OnAudioProcess sampleFrame; OnClose]) = true)
    by reflexivity.
  split; [exact H|].
  apply (@volume_stays_in_the_unit_interval _ H).
Defined.

(* ===================================================================== *)
(** ** The component [App]                                                 *)
(* ===================================================================== *)

Lemma exec_app es1 es2 s : exec (es1 ++ es2) s = exec es2 (exec es1 s).
Proof. revert s. induction es1 as [|e es1 IH]; intros s; cbn; auto. Qed.

Lemma handleStartGame_run env universe a :
  handleStartGame env universe a =
  (match result (connect env (session a)) with
   | inr true =>
       mkAppState (Some universe) (final (connect env (session a))) (timers a)
         (suspended a ++ [propsOf universe])
   | _ =>
       mkAppState (Some universe) (final (connect env (session a))) (timers a)
         (suspended a)
   end,
   trace (connect env (session a))).
Proof.
  unfold handleStartGame, inSession. cbn [session set_activeUniverse].
  destruct (connect env (session a)) as [s1 ops [e|[|]]]; reflexivity.
Qed.

Lemma handleEndGame_run stopThrows a :
  handleEndGame stopThrows a =
  (mkAppState None (tornDown (session a)) (timers a) (suspended a),
   teardownOps (session a)).
Proof.
  unfold handleEndGame, inSession. rewrite disconnect_run. reflexivity.
Qed.

Lemma handleRestart_run stopThrows a :
  handleRestart stopThrows a =
  match activeUniverse a with
  | Some universe =>
      (mkAppState (Some universe) (tornDown (session a)) (timers a ++ [universe])
         (suspended a),
       teardownOps (session a))
  | None => (a, [])
  end.
Proof.
  unfold handleRestart, inSession. rewrite disconnect_run.
  destruct (activeUniverse a) eqn:E; [|reflexivity].
  cbn. unfold set_timers, set_session. cbn. rewrite E. reflexivity.
Qed.

(** A step of the component changes the hook's state exactly as the hook
    events it amounts to. *)
Lemma appStep_session ev a :
  session (fst (appStep ev a)) = exec (hookEvents ev a) (session a).
Proof.
  destruct ev; cbn [appStep hookEvents].
  - rewrite handleStartGame_run. cbn [fst exec]. rewrite handle_connect_run.
    cbn [final]. destruct (result _) as [e|[|]]; reflexivity.
  - rewrite handleEndGame_run. cbn [fst exec handle]. rewrite disconnect_run.
    reflexivity.
  - rewrite handleRestart_run. destruct (activeUniverse a); [|reflexivity].
    cbn [fst exec handle]. rewrite disconnect_run. reflexivity.
  - unfold timerFires. destruct (timers a) as [|u rest]; [reflexivity|].
    rewrite handleStartGame_run. cbn [fst exec session set_timers].
    rewrite handle_connect_run. cbn [final].
    destruct (result _) as [e|[|]]; reflexivity.
  - unfold microphoneSettles. destruct (suspended a) as [|props rest]; [reflexivity|].
    unfold inSession. cbn [session set_suspended exec handle].
    destruct (connect_resume props settled live (session a)); reflexivity.
  - unfold callback, inSession. cbn [exec].
    destruct (handle ev (session a)); reflexivity.
Qed.

Lemma appRun_session evs :
  forall a, session (appRun evs a) = exec (hookTrace evs a) (session a).
Proof.
  induction evs as [|ev evs IH]; intros a; cbn [appRun hookTrace]; [reflexivity|].
  rewrite IH, exec_app, appStep_session. reflexivity.
Qed.

Lemma hookTrace_no_message evs :
  forall a,
    forallb noMessage evs = true ->
    forallb (fun ev => negb (isMessage ev)) (hookTrace evs a) = true.
Proof.
  induction evs as [|ev evs IH]; intros a H; cbn in *; [reflexivity|].
  apply andb_prop in H. destruct H as [Hev Hes].
  rewrite forallb_app, IH by exact Hes. rewrite andb_true_r.
  destruct ev; cbn.
  - reflexivity.
  - reflexivity.
  - destruct (activeUniverse a); reflexivity.
  - destruct (timers a); reflexivity.
  - destruct (suspended a); reflexivity.
  - destruct ev; try reflexivity. discriminate.
Qed.

Lemma exec_messages es :
  forall s,
    forallb (fun ev => negb (isMessage ev)) es = true ->
    messages (exec es s) = messages s.
Proof.
  induction es as [|ev es IH]; intros s H; cbn in *; [reflexivity|].
  apply andb_prop in H. destruct H as [Hev Hes].
  rewrite IH by exact Hes. apply handle_messages.
  intros env message ->. discriminate.
Qed.

Lemma microphoneSettles_ok stream p props rest a :
  suspended a = props :: rest ->
  microphoneSettles (inr stream) (inr p) a =
  (mkAppState (activeUniverse a)
     (set_sessionPromiseRef (Some p) (set_mediaStreamRef (Some stream) (session a)))
     (timers a) rest,
   [LiveConnect (voiceName props) (systemInstruction props)]).
Proof.
  intros H. unfold microphoneSettles. rewrite H. reflexivity.
Qed.

(** X15.  Choosing a scenario shows the game screen at once and calls
    [connect]; when the microphone is granted, the session is requested
    with that scenario's voice and initial prompt, and the hook holds the
    two contexts, the stream and the session promise.  Until [onopen] the
    status line reads [Connecting...]. *)
Theorem start_game_connects_as_chosen :
  forall a env universe cin cout stream p,
    inputContext env = inr cin ->
    outputContext env = inr cout ->
    genAI env = None ->
    suspended a = [] ->
    let a1 := fst (handleStartGame env universe a) in
    let r := microphoneSettles (inr stream) (inr p) a1 in
    screen a1 = ActiveGame universe /\
    snd (handleStartGame env universe a) = teardownOps (session a) ++ acquisitions /\
    snd r = [LiveConnect (Universe.voiceString (Universe.voiceName universe))
               (Universe.initialPrompt universe)] /\
    refsOf (session (fst r)) = (Some cin, Some cout, Some stream, None, Some p) /\
    statusLine (session (fst r)) = "Connecting..."%string /\
    messages (session (fst r)) = messages (session a) /\
    suspended (fst r) = [].
Proof.
  intros a env universe cin cout stream p H1 H2 H3 Hs. cbv zeta.
  rewrite handleStartGame_run, (connect_success_run env (session a) H1 H2 H3).
  cbn [result final trace fst snd]. rewrite Hs. cbn [app].
  erewrite microphoneSettles_ok by reflexivity.
  repeat split.
Qed.

Lemma start_game_connects_as_chosen_witness :
  let a1 := fst (handleStartGame sampleConnectEnv sampleUniverse initialApp) in
  let r := microphoneSettles (inr 3) (inr 4) a1 in
  inputContext sampleConnectEnv = inr 1 /\
  outputContext sampleConnectEnv = inr 2 /\
  genAI sampleConnectEnv = None /\
  suspended initialApp = [] /\
  snd r = [LiveConnect "Fenrir" "You are the Game Master on Station X-9."] /\
  statusLine (session (fst r)) = "Connecting..."%string.
Proof.
  cbv zeta.
  destruct (@start_game_connects_as_chosen initialApp sampleConnectEnv
              sampleUniverse 1 2 3 4 eq_refl eq_refl eq_refl eq_refl)
    as (_ & _ & H3 & _ & H5 & _).
  split; [reflexivity|]. split; [reflexivity|]. split; [reflexivity|].
  split; [reflexivity|]. split; [exact H3 | exact H5].
Defined.

(** X16.  [handleRestart] does nothing when no scenario is active.  With
    an active scenario it tears the session down at once and keeps the game
    screen; when its timer fires, [connect] is called again, and when the
    microphone is granted the session is requested with the voice and the
    prompt of the same scenario.  The transcript of the story so far is
    still there. *)
Theorem restart_reconnects_the_same_scenario :
  (forall stopThrows a,
     activeUniverse a = None -> handleRestart stopThrows a = (a, [])) /\
  (forall stopThrows a universe env cin cout stream p,
     activeUniverse a = Some universe ->
     timers a = [] ->
     suspended a = [] ->
     inputContext env = inr cin ->
     outputContext env = inr cout ->
     genAI env = None ->
     let a1 := fst (handleRestart stopThrows a) in
     let a2 := fst (timerFires env a1) in
     let r := microphoneSettles (inr stream) (inr p) a2 in
     snd (handleRestart stopThrows a) = teardownOps (session a) /\
     allReleased (session a1) /\
     screen a1 = ActiveGame universe /\
     snd (timerFires env a1) = acquisitions /\
     snd r = [LiveConnect (Universe.voiceString (Universe.voiceName universe))
                (Universe.initialPrompt universe)] /\
     screen (fst r) = ActiveGame universe /\
     timers (fst r) = [] /\
     messages (session (fst r)) = messages (session a)).
Proof.
  split.
  - intros st a H. rewrite handleRestart_run, H. reflexivity.
  - intros st a universe env cin cout stream p Ha Ht Hs H1 H2 H3. cbv zeta.
    rewrite handleRestart_run, Ha. cbn [fst snd].
    unfold timerFires. cbn [timers]. rewrite Ht. cbn [app].
    rewrite handleStartGame_run. cbn [session set_timers].
    rewrite (connect_success_run env (tornDown (session a)) H1 H2 H3).
    cbn [result final trace fst snd]. rewrite Hs. cbn [app].
    erewrite microphoneSettles_ok by reflexivity.
    repeat split.
Qed.

Lemma restart_reconnects_the_same_scenario_witness :
  let a1 := fst (handleRestart neverThrows samplePlaying) in
  let a2 := fst (timerFires sampleConnectEnv a1) in
  activeUniverse samplePlaying = Some sampleUniverse /\
  timers samplePlaying = [] /\
  suspended samplePlaying = [] /\
  snd (handleRestart neverThrows samplePlaying) =
    [AudioContextClose 1; AudioContextClose 2; StopTracks 3;
     ProcessorDisconnect 5; ThenClose 4] /\
  snd (microphoneSettles (inr 6) (inr 7) a2) =
    [LiveConnect "Fenrir" "You are the Game Master on Station X-9."].
Proof.
  cbv zeta.
  destruct restart_reconnects_the_same_scenario as [_ H].
  destruct (H neverThrows samplePlaying sampleUniverse sampleConnectEnv 1 2 6 7
              eq_refl eq_refl eq_refl eq_refl eq_refl eq_refl)
    as (H1 & _ & _ & _ & H5 & _).
  split; [reflexivity|]. split; [reflexivity|]. split; [reflexivity|].
  split; [exact H1 | exact H5].
Defined.

(** X17.  The timer set by [handleRestart] is never cancelled.  If the game
    is left before it fires, the selection screen is shown, and when the
    timer fires the captured scenario becomes active again and [connect]
    acquires two audio contexts and asks for the microphone. *)
Theorem exit_does_not_cancel_a_restart :
  forall stopThrows stopThrows' a universe env cin cout,
    activeUniverse a = Some universe ->
    timers a = [] ->
    inputContext env = inr cin ->
    outputContext env = inr cout ->
    genAI env = None ->
    let a2 := appRun [ClickRestart stopThrows; ClickExit stopThrows'] a in
    let a3 := fst (appStep (TimerFires env) a2) in
    screen a2 = UniverseSelection /\
    timers a2 = [universe] /\
    screen a3 = ActiveGame universe /\
    snd (appStep (TimerFires env) a2) = acquisitions /\
    refsOf (session a3) = (Some cin, Some cout, None, None, None).
Proof.
  intros st st' a universe env cin cout Ha Ht H1 H2 H3. cbv zeta.
  cbn [appRun appStep]. rewrite handleRestart_run, Ha. cbn [fst].
  rewrite handleEndGame_run. cbn [fst session timers suspended].
  rewrite Ht. cbn [app]. unfold timerFires. cbn [timers].
  rewrite handleStartGame_run. cbn [session set_timers].
  rewrite (connect_success_run env _ H1 H2 H3).
  cbn [result final trace fst snd].
  repeat split.
Qed.

Lemma exit_does_not_cancel_a_restart_witness :
  let a2 := appRun [ClickRestart neverThrows; ClickExit neverThrows] samplePlaying in
  let a3 := fst (appStep (TimerFires sampleConnectEnv) a2) in
  activeUniverse samplePlaying = Some sampleUniverse /\
  timers samplePlaying = [] /\
  screen a2 = UniverseSelection /\
  screen a3 = ActiveGame sampleUniverse.
Proof.
  cbv zeta.
  destruct (@exit_does_not_cancel_a_restart neverThrows neverThrows samplePlaying
              sampleUniverse sampleConnectEnv 1 2
              eq_refl eq_refl eq_refl eq_refl eq_refl)
    as (H1 & _ & H3 & _).
  split; [reflexivity|]. split; [reflexivity|]. split; [exact H1 | exact H3].
Defined.

(** X18.  The component never clears the transcript: over any steps other
    than the delivery of a message, starting, leaving and restarting a game
    among them, the messages are exactly as before; and over any steps at
    all, every earlier message is still in its place. *)
Theorem component_never_clears_the_transcript :
  forall evs a,
    (forallb noMessage evs = true ->
     messages (session (appRun evs a)) = messages (session a)) /\
    continues (messages (session a)) (messages (session (appRun evs a))).
Proof.
  intros evs a. rewrite appRun_session. split.
  - intros H. apply exec_messages, hookTrace_no_message, H.
  - apply exec_continues.
Qed.

Lemma component_never_clears_the_transcript_witness :
  let a := fst (appStep (Callback (OnMessage sampleEnv (fragment Output "Welcome.")))
                  samplePlaying) in
  let evs := [ClickRestart neverThrows; TimerFires sampleConnectEnv;
              ClickExit neverThrows;
              ClickUniverse sampleConnectEnv sampleUniverse] in
  forallb noMessage evs = true /\
  map text (messages (session (appRun evs a))) = ["Welcome."%string].
Proof.
  cbv zeta.
  assert (H : forallb noMessage
                [ClickRestart neverThrows; TimerFires sampleConnectEnv;
                 ClickExit neverThrows;
                 ClickUniverse sampleConnectEnv sampleUniverse] = true)
    by reflexivity.
  split; [exact H|].
  destruct (@component_never_clears_the_transcript
              [ClickRestart neverThrows; TimerFires sampleConnectEnv;
               ClickExit neverThrows;
               ClickUniverse sampleConnectEnv sampleUniverse]
              (fst (appStep (Callback (OnMessage sampleEnv (fragment Output "Welcome.")))
                      samplePlaying))) as [H1 _].
  rewrite (H1 H). reflexivity.
Defined.

Lemma failure_error ev s err :
  failureOf ev = Some err ->
  error (final (handle ev s)) =
    Some (JS.orElse (JS.message err) (fallbackText ev)) /\
  isConnected (final (handle ev s)) = false.
Proof.
  intros H. destruct ev; try discriminate; cbn [failureOf fallbackText] in *.
  - rewrite handle_connect_run.
    destruct (connect_failure_run env s H) as (s1 & att & -> & _).
    split; reflexivity.
  - cbn [handle].
    destruct (connect_resume_failure_run props settled live s H)
      as (s1 & att & -> & _).
    split; reflexivity.
  - injection H as <-. split; reflexivity.
Qed.

(** X19.  Every failure the hook surfaces is what the status line of the
    game screen shows: after a failed acquisition or a remote error the line
    is the failure's message, or the fixed text when it has none, and never
    one of the two connection texts in its place; the placeholder of an
    empty transcript is not shown. *)
Theorem failure_is_shown_in_the_status_line :
  forall ev s err,
    failureOf ev = Some err ->
    let s' := final (handle ev s) in
    statusLine s' = JS.orElse (JS.message err) (fallbackText ev) /\
    statusLine s' <> EmptyString /\
    summoning s' = false.
Proof.
  intros ev s err H. cbv zeta.
  destruct (failure_error ev s H) as [He Hc].
  assert (Ht : JS.truthyString (JS.orElse (JS.message err) (fallbackText ev)) = true)
    by (apply orElse_truthy; destruct ev; reflexivity).
  assert (Hs : statusLine (final (handle ev s)) =
               JS.orElse (JS.message err) (fallbackText ev)).
  { unfold statusLine. rewrite He. cbn [JS.truthyText]. rewrite Ht. reflexivity. }
  split; [exact Hs|]. split.
  - rewrite Hs. intros E. rewrite E in Ht. discriminate.
  - unfold summoning. rewrite Hc. apply andb_false_r.
Qed.

Lemma failure_is_shown_in_the_status_line_witness :
  let ev := OnError (JS.mkExn None) in
  failureOf ev = Some (JS.mkExn None) /\
  statusLine (final (handle ev sampleOpen)) = "An error occurred"%string.
Proof.
  cbv zeta. split; [reflexivity|].
  apply (@failure_is_shown_in_the_status_line (OnError (JS.mkExn None))
           sampleOpen (JS.mkExn None) eq_refl).
Defined.

Lemma hookTrace_framed evs :
  forall a,
    forallb framedStep evs = true ->
    forallb framed (hookTrace evs a) = true.
Proof.
  induction evs as [|ev evs IH]; intros a H; cbn in *; [reflexivity|].
  apply andb_prop in H. destruct H as [Hev Hes].
  rewrite forallb_app, IH by exact Hes. rewrite andb_true_r.
  destruct ev; cbn.
  - reflexivity.
  - reflexivity.
  - destruct (activeUniverse a); reflexivity.
  - destruct (timers a); reflexivity.
  - destruct (suspended a); reflexivity.
  - cbn in Hev. rewrite Hev. reflexivity.
Qed.

(** X20.  In every state the component reaches from its initial state,
    with audio frames that are not empty, what the visualizer draws stays in
    range: the glow is scaled by a factor between 1 and 2.5, and a bar is at
    least 4 and less than 50 pixels high, whatever [Math.random()]
    returns. *)
Theorem visualizer_stays_in_range :
  forall evs random,
    forallb framedStep evs = true ->
    (0 <= random < 1)%R ->
    let v := volume (session (appRun evs initialApp)) in
    (1 <= glowScale v <= 2.5)%R /\
    (4 <= barHeight random v < 50)%R.
Proof.
  intros evs random Hf Hr. cbv zeta. rewrite appRun_session.
  assert (Hv : (0 <= volume (exec (hookTrace evs initialApp) (session initialApp))
                <= 1)%R).
  { apply exec_volume; [apply hookTrace_framed, Hf | cbn; lra]. }
  set (v := volume _) in *.
  split; [unfold glowScale; lra|].
  unfold barHeight. split; [apply Rmax_l|].
  apply Rmax_lub_lt; [lra|].
  apply Rlt_le_trans with (1 * (v * 40 + 10))%R; [|lra].
  apply Rmult_lt_compat_r; lra.
Qed.

Lemma visualizer_stays_in_range_witness :
  let evs := [ClickUniverse sampleConnectEnv sampleUniverse;
              MicrophoneSettles (inr 3) (inr 4);
              Callback (OnOpen 5);
              Callback (OnAudioProcess sampleFrame)] in
  forallb framedStep evs = true /\
  (0 <= 1 / 2 < 1)%R /\
  (4 <= barHeight (1 / 2) (volume (session (appRun evs initialApp))) < 50)%R.
Proof.
  cbv zeta.
  assert (H : forallb framedStep
                [ClickUniverse sampleConnectEnv sampleUniverse;
                 MicrophoneSettles (inr 3) (inr 4);
                 Callback (OnOpen 5);
                 Callback (OnAudioProcess sampleFrame)] = true) by reflexivity.
  assert (Hr : (0 <= 1 / 2 < 1)%R) by lra.
  split; [exact H|]. split; [exact Hr|].
  apply (@visualizer_stays_in_range _ (1 / 2)%R H Hr).
Defined.

(** *** React keys *)

Lemma toString_inj a b : JS.toString a = JS.toString b -> a = b.
Proof.
  unfold JS.toString. intros H.
  assert (N : forall z, Z.to_int z <> Decimal.Pos Decimal.Nil /\
                        Z.to_int z <> Decimal.Neg Decimal.Nil).
  { intros z. destruct z; cbn; split; try discriminate;
      intros [= E]; apply (Unsigned.to_uint_nonnil _ E). }
  apply DecimalZ.to_int_inj.
  apply (f_equal NilZero.int_of_string) in H.
  rewrite !NilZero.isi in H by apply N.
  congruence.
Qed.

Lemma append_same_length (a b c d : string) :
  (a ++ b)%string = (c ++ d)%string ->
  String.length a = String.length c ->
  a = c /\ b = d.
Proof.
  revert c. induction a as [|x a IH]; intros c H L; destruct c as [|y c];
    cbn in *; try discriminate; [auto|].
  injection H as -> H. injection L as L.
  destruct (IH c H L) as [-> ->]. auto.
Qed.

Lemma keysFrom_In k index ms :
  In k (keysFrom index ms) ->
  exists m j,
    In m ms /\ (index <= j)%nat /\
    k = (id m ++ JS.toString (Z.of_nat j))%string.
Proof.
  revert index. induction ms as [|m0 ms IH]; intros index H; cbn in H; [tauto|].
  destruct H as [<-|H].
  - exists m0, index. split; [left; reflexivity | split; [lia | reflexivity]].
  - destruct (IH (S index) H) as (m & j & Hm & Hj & ->).
    exists m, j. split; [right; exact Hm | split; [lia | reflexivity]].
Qed.

(** X21.  The keys [msg.id + index] of the rendered messages are pairwise
    distinct whenever the ids have one length, as the decimal timestamps of
    [Date.now()] have, even when two messages share an id. *)
Theorem message_keys_are_distinct :
  forall ms,
    (forall m m', In m ms -> In m' ms ->
                  String.length (id m) = String.length (id m')) ->
    NoDup (messageKeys ms).
Proof.
  intros ms. unfold messageKeys. generalize 0%nat.
  induction ms as [|m0 ms IH]; intros index H; cbn; constructor.
  - intros Hin. destruct (keysFrom_In _ _ _ Hin) as (m & j & Hm & Hj & E).
    apply append_same_length in E;
      [|apply H; [left; reflexivity | right; exact Hm]].
    destruct E as [_ E]. apply toString_inj in E. lia.
  - apply IH. intros m m' Hm Hm'. apply H; right; assumption.
Qed.

Lemma message_keys_are_distinct_witness :
  let ms := messages
              (exec [OnMessage sampleEnv (fragment Input "a");
                     OnMessage sampleEnv (fragment Output "b");
                     OnMessage sampleEnv (fragment Input "c")] initialState) in
  map id ms = ["1700000000001"; "1700000000000"; "1700000000001"]%string /\
  NoDup (messageKeys ms).
Proof.
  cbv zeta. split; [vm_compute; reflexivity|].
  apply message_keys_are_distinct.
  intros m m' Hm Hm'. vm_compute in Hm, Hm'.
  destruct Hm as [<-|[<-|[<-|[]]]]; destruct Hm' as [<-|[<-|[<-|[]]]];
    reflexivity.
Defined.

(* ===================================================================== *)
(** ** The text of a stream within a turn                                  *)
(* ===================================================================== *)

Lemma roleOf_other d : roleOf (other d) <> roleOf d.
Proof. destruct d; discriminate. Qed.

Lemma removelast_cons_app {A : Type} (pre : list A) m post x :
  removelast (pre ++ m :: post ++ [x]) = pre ++ m :: post.
Proof.
  change (pre ++ m :: post ++ [x]) with (pre ++ (m :: post) ++ [x]).
  rewrite app_assoc, removelast_last. reflexivity.
Qed.

(** A fragment of the stream itself: the newest message of its role holds
    the extended accumulation ref. *)
Lemma shows_own d acc now date ms :
  shows d acc (accumulate (roleOf d) acc now date ms).
Proof.
  right.
  destruct (accumulate_standing (roleOf d) acc now date ms)
    as (m & -> & Hr & Hp & Ht).
  exists (standing (roleOf d) ms), m, []. auto.
Qed.

(** A fragment of the other stream leaves what is shown for this one. *)
Lemma shows_other d acc current now date ms :
  shows d acc ms ->
  shows d acc (accumulate (roleOf (other d)) current now date ms).
Proof.
  intros [->|(pre & m & post & -> & Hr & Hp & Ht & Hpost)]; [left; reflexivity|].
  right.
  destruct (accumulate_standing (roleOf (other d)) current now date
              (pre ++ m :: post)) as (m' & -> & Hr' & _ & _).
  assert (Hm' : role m' <> roleOf d) by (rewrite Hr'; apply roleOf_other).
  unfold standing.
  destruct (JS.lastOf (pre ++ m :: post)) as [last|] eqn:El.
  - destruct (partialOf (roleOf (other d)) last) eqn:Ep.
    + apply partialOf_spec in Ep. destruct Ep as [Hl _].
      destruct (rev post) as [|x rpost] eqn:Er.
      * apply (f_equal (@rev _)) in Er. rewrite rev_involutive in Er. cbn in Er.
        subst post. change (pre ++ [m]) with (pre ++ [m]) in El.
        rewrite lastOf_app in El. injection El as <-.
        exfalso. apply (roleOf_other d). congruence.
      * apply (f_equal (@rev _)) in Er. rewrite rev_involutive in Er. cbn in Er.
        subst post. unfold JS.sliceInit. rewrite removelast_cons_app.
        exists pre, m, (rev rpost ++ [m']).
        split; [rewrite <- app_assoc; reflexivity|].
        repeat split; try assumption.
        apply Forall_app. split; [|constructor; [exact Hm' | constructor]].
        apply Forall_app in Hpost. tauto.
    + exists pre, m, (post ++ [m']).
      split; [rewrite <- app_assoc; reflexivity|].
      repeat split; try assumption.
      apply Forall_app. split; [exact Hpost | constructor; [exact Hm' | constructor]].
  - exists pre, m, (post ++ [m']).
    split; [rewrite <- app_assoc; reflexivity|].
    repeat split; try assumption.
    apply Forall_app. split; [exact Hpost | constructor; [exact Hm' | constructor]].
Qed.

Lemma received_other_current d env t s :
  currentTranscription d (received (other d) env t s) = currentTranscription d s.
Proof. destruct d; reflexivity. Qed.

(** One transcription branch, seen from stream [d]. *)
Lemma afterTranscription_shows d d' env message s :
  shows d (currentTranscription d s) (messages s) ->
  let s' := afterTranscription d' env message s in
  shows d (currentTranscription d s') (messages s') /\
  currentTranscription d s' =
    (currentTranscription d s ++
     if match d, d' with Output, Output | Input, Input => true | _, _ => false end
     then textFor d message else EmptyString)%string.
Proof.
  intros H. cbv zeta.
  destruct (JS.truthyString (textFor d' message)) eqn:Et.
  - rewrite afterTranscription_truthy by exact Et.
    rewrite received_messages.
    destruct d, d'; cbn [other roleOf] in *.
    + split; [apply (shows_own Output) | reflexivity].
    + split; [|cbn; rewrite append_empty_r; reflexivity].
      apply shows_other, H.
    + split; [|cbn; rewrite append_empty_r; reflexivity].
      apply shows_other, H.
    + split; [apply (shows_own Input) | reflexivity].
  - rewrite afterTranscription_falsy by exact Et.
    split; [exact H|].
    apply truthyString_false in Et.
    destruct d, d'; rewrite ?Et, append_empty_r; reflexivity.
Qed.

Lemma inTurn_step d ev s :
  inTurn ev = true ->
  shows d (currentTranscription d s) (messages s) ->
  let s' := final (handle ev s) in
  shows d (currentTranscription d s') (messages s') /\
  currentTranscription d s' = (currentTranscription d s ++ heard d ev)%string.
Proof.
  intros Hin H. cbv zeta.
  destruct (isMessage ev) eqn:Em.
  - destruct ev; try discriminate. cbn [inTurn] in Hin.
    apply andb_prop in Hin. destruct Hin as [Ht Hi].
    apply negb_true_iff in Ht. apply negb_true_iff in Hi.
    cbn [handle heard]. rewrite onmessage_run. cbn [final].
    unfold afterInterrupted, beforeInterrupted, afterTurnComplete.
    rewrite Hi, Ht.
    destruct (transcriptOf_current d (afterAudio_transcript env message s))
      as [Hm Hc].
    assert (H0 : shows d (currentTranscription d (afterAudio env message s))
                   (messages (afterAudio env message s)))
      by (rewrite Hm, Hc; exact H).
    destruct (@afterTranscription_shows d Output env message _ H0) as [H1 E1].
    destruct (@afterTranscription_shows d Input env message _ H1) as [H2 E2].
    cbv zeta in *. split; [exact H2|].
    rewrite E2, E1, Hc.
    destruct d; rewrite ?append_empty_r; reflexivity.
  - assert (Hs : silent ev = true)
      by (destruct ev; try reflexivity; discriminate).
    destruct (transcriptOf_current d (silent_step ev s Hs)) as [Hm Hc].
    rewrite Hm, Hc.
    assert (Hh : heard d ev = EmptyString)
      by (destruct ev; try reflexivity; discriminate).
    rewrite Hh, append_empty_r. auto.
Qed.

Lemma inTurn_exec d es :
  forall s,
    forallb inTurn es = true ->
    shows d (currentTranscription d s) (messages s) ->
    shows d (currentTranscription d (exec es s)) (messages (exec es s)) /\
    currentTranscription d (exec es s) =
      (currentTranscription d s ++ joined (map (heard d) es))%string.
Proof.
  induction es as [|ev es IH]; intros s Hin H; cbn [exec map joined].
  - rewrite append_empty_r. auto.
  - cbn [forallb] in Hin. apply andb_prop in Hin. destruct Hin as [Hev Hes].
    destruct (@inTurn_step d ev s Hev H) as [H1 E1]. cbv zeta in H1, E1.
    destruct (IH _ Hes H1) as [H2 E2].
    split; [exact H2|]. rewrite E2, E1, append_assoc. reflexivity.
Qed.

(** X22.  Within a turn, however the fragments of the two streams and
    other events interleave, the newest message of a role is partial and
    its text is everything received for that role since the accumulation
    ref was empty, in arrival order.  So when a fragment starts a further
    message for a role after a message of the other role, the new message
    repeats the text of the earlier one. *)
Theorem newest_message_holds_the_whole_turn :
  forall d es s,
    currentTranscription d s = EmptyString ->
    forallb inTurn es = true ->
    let heardSoFar := joined (map (heard d) es) in
    currentTranscription d (exec es s) = heardSoFar /\
    (heardSoFar <> EmptyString ->
     exists pre m post,
       messages (exec es s) = pre ++ m :: post /\
       role m = roleOf d /\
       isPartial m = Some true /\
       text m = heardSoFar /\
       Forall (fun x => role x <> roleOf d) post).
Proof.
  intros d es s Hc Hin. cbv zeta.
  destruct (@inTurn_exec d es s Hin) as [H E]; [left; exact Hc|].
  rewrite Hc in E. cbn [append] in E.
  split; [exact E|]. intros Hne.
  rewrite E in H. destruct H as [H|H]; [contradiction | exact H].
Qed.

Lemma newest_message_holds_the_whole_turn_witness :
  let es := [OnMessage sampleEnv (fragment Input "a");
             OnMessage sampleEnv (fragment Output "b");
             OnMessage sampleEnv audioMessage;
             OnMessage sampleEnv (fragment Input "c")] in
  currentTranscription Input sampleOpen = EmptyString /\
  forallb inTurn es = true /\
  joined (map (heard Input) es) = "ac"%string /\
  exists pre m post,
    messages (exec es sampleOpen) = pre ++ m :: post /\
    role m = user /\ text m = "ac"%string.
Proof.
  cbv zeta.
  assert (Hc : currentTranscription Input sampleOpen = EmptyString) by reflexivity.
  assert (Hin : forallb inTurn
                  [OnMessage sampleEnv (fragment Input "a");
                   OnMessage sampleEnv (fragment Output "b");
                   OnMessage sampleEnv audioMessage;
                   OnMessage sampleEnv (fragment Input "c")] = true) by reflexivity.
  destruct (@newest_message_holds_the_whole_turn Input _ sampleOpen Hc Hin)
    as [_ Hex].
  split; [exact Hc|]. split; [exact Hin|]. split; [reflexivity|].
  destruct Hex as (pre & m & post & H1 & H2 & _ & H4 & _); [discriminate|].
  exists pre, m, post. split; [exact H1|]. split; [exact H2 | exact H4].
Defined.

(* ===================================================================== *)
(** ** The session promise: the deferred close and the rejection           *)
(* ===================================================================== *)

Lemma closesAttached_connect env s :
  closesAttached (trace (connect env s)) = heldSession s.
Proof.
  destruct (connect_run_trace env s) as (att & -> & Hatt).
  rewrite closesAttached_app, closesAttached_teardownOps.
  destruct Hatt as [-> | [-> | [-> | ->]]]; cbn; apply app_nil_r.
Qed.

Lemma worldStep_connect env w :
  worldStep (Hook (Connect env)) w =
  (mkWorld (final (connect env (hook w))) (settlements w)
     (waiting w ++ filter (isPending w) (heldSession (hook w))),
   trace (connect env (hook w)) ++
   map SessionClose (filter (isFulfilled w) (heldSession (hook w)))).
Proof.
  cbn [worldStep]. rewrite handle_connect_run. cbn [final trace].
  rewrite closesAttached_connect. reflexivity.
Qed.

(** X8.  [connect] releases the devices of the previous session before it
    acquires, but not the session.  Its own operations are the teardown of
    the state it is called in (the contexts closed, the tracks stopped, the
    processor disconnected, the units stopped, the close handed to the old
    session promise) followed by acquisitions only, and none of them is
    [session.close()].  When the constructors succeed it clears the error,
    performs the four acquisitions in order and waits for the microphone
    holding exactly the two new audio contexts, the flag still false.  The
    old session is closed after all of that, acquisitions included, when
    its promise is already fulfilled; when the promise is pending it is
    closed only once the promise is fulfilled, and never when the promise
    is rejected. *)
Theorem connect_closes_the_old_session_after_acquiring :
  (forall env s,
     exists attempts,
       trace (connect env s) = teardownOps s ++ attempts /\
       forallb (fun o => negb (isAcquire o)) (teardownOps s) = true /\
       forallb isAcquire attempts = true /\
       forall p, ~ In (SessionClose p) (trace (connect env s))) /\
  (forall env s cin cout,
     inputContext env = inr cin ->
     outputContext env = inr cout ->
     genAI env = None ->
     let o := connect env s in
     result o = inr true /\
     trace o = teardownOps s ++ acquisitions /\
     error (final o) = None /\
     isConnected (final o) = false /\
     refsOf (final o) = (Some cin, Some cout, None, None, None) /\
     sourcesRef (final o) = []) /\
  (forall env w p,
     sessionPromiseRef (hook w) = Some p ->
     settlementOf p w = Some Fulfilled ->
     let r := worldStep (Hook (Connect env)) w in
     snd r = trace (connect env (hook w)) ++ [SessionClose p] /\
     waiting (fst r) = waiting w) /\
  (forall env w p,
     sessionPromiseRef (hook w) = Some p ->
     settlementOf p w = None ->
     let r := worldStep (Hook (Connect env)) w in
     snd r = trace (connect env (hook w)) /\
     waiting (fst r) = waiting w ++ [p] /\
     snd (worldStep (Settles p Fulfilled) (fst r)) =
       map SessionClose (filter (Nat.eqb p) (waiting w)) ++ [SessionClose p] /\
     forall reason, snd (worldStep (Settles p (Rejected reason)) (fst r)) = []) /\
  (forall env w p reason,
     sessionPromiseRef (hook w) = Some p ->
     settlementOf p w = Some (Rejected reason) ->
     let r := worldStep (Hook (Connect env)) w in
     snd r = trace (connect env (hook w)) /\
     waiting (fst r) = waiting w).
Proof.
  split; [|split; [|split; [|split]]].
  - intros env s. destruct (connect_run_trace env s) as (att & Ht & Hc).
    exists att. split; [exact Ht|]. split; [apply teardownOps_no_acquire_each|].
    split.
    + destruct Hc as [-> | [-> | [-> | ->]]]; reflexivity.
    + intros p Hin. rewrite Ht in Hin. apply in_app_or in Hin.
      destruct Hin as [Hin|Hin].
      * exact (SessionClose_not_in_teardown _ _ Hin).
      * destruct Hc as [-> | [-> | [-> | ->]]]; cbn in Hin; intuition discriminate.
  - intros env s cin cout H1 H2 H3. cbv zeta.
    rewrite (connect_success_run env s H1 H2 H3). repeat split.
  - intros env w p Hp Hs. cbv zeta. rewrite worldStep_connect.
    unfold heldSession. rewrite Hp. cbn [filter fst snd waiting].
    unfold isFulfilled, isPending. rewrite Hs. cbn [map].
    split; [reflexivity | apply app_nil_r].
  - intros env w p Hp Hs. cbv zeta. rewrite worldStep_connect.
    unfold heldSession. rewrite Hp. cbn [filter fst snd waiting].
    unfold isFulfilled, isPending. rewrite Hs. cbn [map].
    split; [apply app_nil_r|]. split; [reflexivity|].
    assert (Hs' : forall h, settlementOf p (mkWorld h (settlements w) (waiting w ++ [p])) = None)
      by (intros h; exact Hs).
    split.
    + cbn [worldStep]. rewrite Hs'. cbn [snd waiting].
      rewrite filter_app, map_app. cbn [filter]. rewrite Nat.eqb_refl. reflexivity.
    + intros reason. cbn [worldStep]. rewrite Hs'. reflexivity.
  - intros env w p reason Hp Hs. cbv zeta. rewrite worldStep_connect.
    unfold heldSession. rewrite Hp. cbn [filter fst snd waiting].
    unfold isFulfilled, isPending. rewrite Hs. cbn [map].
    split; apply app_nil_r.
Qed.

Lemma connect_closes_the_old_session_after_acquiring_witness :
  let r := worldStep (Hook (Connect sampleConnectEnv)) sampleWorld in
  sessionPromiseRef (hook sampleWorld) = Some 4 /\
  settlementOf 4 sampleWorld = Some Fulfilled /\
  snd r = trace (connect sampleConnectEnv (hook sampleWorld)) ++ [SessionClose 4] /\
  trace (connect sampleConnectEnv (hook sampleWorld)) =
    [AudioContextClose 1; AudioContextClose 2; StopTracks 3;
     ProcessorDisconnect 5; ThenClose 4;
     NewAudioContext 16000; NewAudioContext 24000; NewGoogleGenAI; GetUserMedia].
Proof.
  cbv zeta.
  destruct connect_closes_the_old_session_after_acquiring as (_ & _ & H & _).
  destruct (H sampleConnectEnv sampleWorld 4 eq_refl eq_refl) as (H1 & _).
  split; [reflexivity|]. split; [reflexivity|]. split; [exact H1|].
  reflexivity.
Defined.

Lemma sessionRequested_run env props stream p w cin cout :
  inputContext env = inr cin ->
  outputContext env = inr cout ->
  genAI env = None ->
  sessionRequested env props stream p w =
  mkWorld
    (set_sessionPromiseRef (Some p)
       (set_mediaStreamRef (Some stream) (waitingForMicrophone cin cout (hook w))))
    (settlements w)
    (waiting w ++ filter (isPending w) (heldSession (hook w))).
Proof.
  intros H1 H2 H3. unfold sessionRequested. cbn [worldRun fst].
  rewrite worldStep_connect. cbn [fst].
  rewrite (connect_success_run env (hook w) H1 H2 H3). cbn [final].
  cbn [worldStep hook settlements waiting handle fst].
  rewrite app_nil_r. reflexivity.
Qed.

(** C7.  A failure of session acquisition that no handler receives.  From
    any state, [connect] succeeds up to [ai.live.connect], which returns
    the promise [p]; [p] is then rejected.  [connect] has neither awaited
    the promise nor attached a continuation to it, so nothing runs: the
    state of the hook is what it was before the rejection, with the error
    cell empty and the flag false, and the status line still reads
    "Connecting...". *)
Theorem rejected_session_promise_surfaces_no_error :
  forall env props stream p reason w cin cout,
    inputContext env = inr cin ->
    outputContext env = inr cout ->
    genAI env = None ->
    settlementOf p w = None ->
    let requested := sessionRequested env props stream p w in
    let r := worldStep (Settles p (Rejected reason)) requested in
    sessionPromiseRef (hook requested) = Some p /\
    settlementOf p (fst r) = Some (Rejected reason) /\
    hook (fst r) = hook requested /\
    snd r = [] /\
    error (hook (fst r)) = None /\
    isConnected (hook (fst r)) = false /\
    statusLine (hook (fst r)) = "Connecting..."%string.
Proof.
  intros env props stream p reason w cin cout H1 H2 H3 Hs. cbv zeta.
  rewrite (sessionRequested_run env props stream p w H1 H2 H3).
  split; [reflexivity|].
  cbn [worldStep].
  match goal with
  | |- context [settlementOf p ?x] =>
      assert (Hs' : settlementOf p x = None) by exact Hs
  end.
  rewrite Hs'. cbn [fst snd hook].
  split; [unfold settlementOf; cbn; rewrite Nat.eqb_refl; reflexivity|].
  repeat split.
Qed.

Lemma rejected_session_promise_surfaces_no_error_witness :
  let requested := sessionRequested sampleConnectEnv sampleProps 3 4 initialWorld in
  let r := worldStep (Settles 4 (Rejected connectionRefused)) requested in
  inputContext sampleConnectEnv = inr 1 /\
  outputContext sampleConnectEnv = inr 2 /\
  genAI sampleConnectEnv = None /\
  settlementOf 4 initialWorld = None /\
  sessionPromiseRef (hook requested) = Some 4 /\
  error (hook (fst r)) = None /\
  isConnected (hook (fst r)) = false /\
  statusLine (hook (fst r)) = "Connecting..."%string.
Proof.
  cbv zeta.
  destruct (@rejected_session_promise_surfaces_no_error sampleConnectEnv
              sampleProps 3 4 connectionRefused initialWorld 1 2
              eq_refl eq_refl eq_refl eq_refl)
    as (H1 & _ & _ & _ & H5 & H6 & H7).
  split; [reflexivity|]. split; [reflexivity|]. split; [reflexivity|].
  split; [reflexivity|]. split; [exact H1|]. split; [exact H5|].
  split; [exact H6 | exact H7].
Defined.
